(** * Tensor liveness analysis: the analyzer's tables and union-find engine

    A shallow embedding of [src/pass/liveness_analysis.h] (class
    [LivenessAnalyzer] with its nested [VarCreator] and [BackwardAnalyzer])
    and the properties of its public and private helpers.

    - A [Var] is a reference-counted handle compared and hashed by object
      identity ([ObjectPtrHash], [ObjectPtrEqual]); it is modelled as the
      address of its node, or the null handle [Var()].
    - [std::unordered_map] is a [gmap], [std::unordered_set] a [gset].
    - A member function is a computation over the analyzer's members that
      either returns a value and the new members, or aborts ([CHECK]
      failure, [std::out_of_range] from [at], [LOG(FATAL)]). *)

From Stdlib Require Import ZArith Ascii String DecimalString DecimalZ.
From stdpp Require Import gmap strings list fin_maps.

Local Open Scope string_scope.
Local Open Scope Z_scope.

(** ** Variables and the object store *)

Inductive Var : Type :=
  | Var_null
  | Var_obj (addr : nat).

#[global] Instance Var_eq_dec : EqDecision Var.
Proof. solve_decision. Defined.

Definition Var_to_option (v : Var) : option nat :=
  match v with Var_null => None | Var_obj a => Some a end.

Definition Var_of_option (o : option nat) : Var :=
  match o with None => Var_null | Some a => Var_obj a end.

#[global] Instance Var_countable : Countable Var.
Proof.
  apply (inj_countable' Var_to_option Var_of_option).
  intros []; reflexivity.
Defined.

(** [x.defined()] *)
Definition defined (x : Var) : bool :=
  match x with Var_null => false | Var_obj _ => true end.

Abbreviation VSet := (gset Var).
Abbreviation MapVSet := (gmap Var (gset Var)).

(** The members of [LivenessAnalyzer] that the helpers below read or write
    ([func_], [failure_], [var_out_] and [var_in_] are touched only by the
    passes themselves).  [var_store] is not a member: it is the store of
    [VarNode] objects, holding each node's name hint at its address; the
    nodes of the analysed program are in it before the analyzer is built. *)
Record analyzer : Type := mk_analyzer {
  vset_ : MapVSet;
  vtuple_ : gmap Var (list Var);
  live_ : MapVSet;
  label_ : gmap string Z;
  union_find_forest_ : gmap Var Var;
  inv_live_ : MapVSet;
  var_store : list string
}.

Definition set_vset (f : gmap Var (gset Var) → gmap Var (gset Var)) (st : analyzer) : analyzer :=
  mk_analyzer (f (vset_ st)) (vtuple_ st) (live_ st) (label_ st)
              (union_find_forest_ st) (inv_live_ st) (var_store st).

Definition set_vtuple (f : gmap Var (list Var) → gmap Var (list Var)) (st : analyzer) : analyzer :=
  mk_analyzer (vset_ st) (f (vtuple_ st)) (live_ st) (label_ st)
              (union_find_forest_ st) (inv_live_ st) (var_store st).

Definition set_label (f : gmap string Z → gmap string Z) (st : analyzer) : analyzer :=
  mk_analyzer (vset_ st) (vtuple_ st) (live_ st) (f (label_ st))
              (union_find_forest_ st) (inv_live_ st) (var_store st).

Definition set_forest (f : gmap Var Var → gmap Var Var) (st : analyzer) : analyzer :=
  mk_analyzer (vset_ st) (vtuple_ st) (live_ st) (label_ st)
              (f (union_find_forest_ st)) (inv_live_ st) (var_store st).

Definition set_inv_live (f : gmap Var (gset Var) → gmap Var (gset Var)) (st : analyzer) : analyzer :=
  mk_analyzer (vset_ st) (vtuple_ st) (live_ st) (label_ st)
              (union_find_forest_ st) (f (inv_live_ st)) (var_store st).

Definition set_var_store (f : list string → list string) (st : analyzer) : analyzer :=
  mk_analyzer (vset_ st) (vtuple_ st) (live_ st) (label_ st)
              (union_find_forest_ st) (inv_live_ st) (f (var_store st)).

(** A freshly constructed analyzer over a program whose variable nodes
    are [nodes]: every table is empty. *)
Definition new_analyzer (nodes : list string) : analyzer :=
  mk_analyzer ∅ ∅ ∅ ∅ ∅ ∅ nodes.

(** The name hint of a variable. *)
Definition name_hint (st : analyzer) (v : Var) : option string :=
  match v with
  | Var_null => None
  | Var_obj a => var_store st !! a
  end.

(** A handle that is null or refers to a node of the store. *)
Definition allocated (st : analyzer) (v : Var) : Prop :=
  match v with
  | Var_null => True
  | Var_obj a => (a < length (var_store st))%nat
  end.

(** ** Outcomes *)

Inductive error : Type :=
  | CheckFailed      (* CHECK(...) *)
  | OutOfRange       (* std::out_of_range thrown by at() *)
  | Fatal.           (* LOG(FATAL) *)

Inductive result (A : Type) : Type :=
  | Ok (a : A)
  | Err (e : error)
  | OutOfFuel.
Arguments Ok {A} a.
Arguments Err {A} e.
Arguments OutOfFuel {A}.

Definition M (A : Type) : Type := analyzer → result (A * analyzer).

Definition ret {A} (a : A) : M A := fun st => Ok (a, st).
Definition fail {A} (e : error) : M A := fun _ => Err e.
Definition bind {A B} (m : M A) (k : A → M B) : M B := fun st =>
  match m st with
  | Ok (a, st') => k a st'
  | Err e => Err e
  | OutOfFuel => OutOfFuel
  end.
Definition get {A} (proj : analyzer → A) : M A := fun st => Ok (proj st, st).
Definition modify (f : analyzer → analyzer) : M unit := fun st => Ok (tt, f st).

Notation "'let!' x ':=' m 'in' k" := (bind m (fun x => k))
  (at level 10, x name, m at level 100, k at level 200).
Notation "m ';;' k" := (bind m (fun _ => k))
  (at level 100, k at level 200, right associativity).

(** [m.at(k)]: throws when the key is absent. *)
Definition at_ {K V} `{Countable K} (proj : analyzer → gmap K V) (k : K) : M V := fun st =>
  match proj st !! k with
  | Some v => Ok (v, st)
  | None => Err OutOfRange
  end.

Definition CHECK (b : bool) : M unit :=
  if b then ret tt else fail CheckFailed.

(** ** Naming and creation of synthesized variables *)

(** [std::to_string(int)]: the decimal numeral, with a minus sign when
    negative. *)
Definition to_string (n : Z) : string := NilEmpty.string_of_int (Z.to_int n).

Definition INT_MAX : Z := 2147483647.
Definition INT_MIN : Z := -2147483648.

(** The value an [int] holds after an arithmetic result [z]: the
    result itself when it fits, and the two's-complement wrap-around
    otherwise (what the compiled increment does past [INT_MAX]). *)
Definition wrap_int (z : Z) : Z :=
  (z - INT_MIN) mod 4294967296 + INT_MIN.

(** Modelled from the spec: [MakeVar] is declared in [mnm/ir.h], which is
    not among the sources here.  [MakeVar(name, {})] builds a new
    variable node with the name hint [name]; the node gets an address no
    existing handle has, as the spec's "one fresh unit" asks. *)
Definition MakeVar (name : string) : M Var := fun st =>
  Ok (Var_obj (length (var_store st)), set_var_store (fun h => (h ++ [name])%list) st).

(** The full name the next [CreateTensorVar(name)] gives. *)
Definition fullname (name : string) (label : Z) : string :=
  name +:+ "_" +:+ to_string label.

(** [Var CreateTensorVar(const std::string& name)].  The counters are C++
    [int]s: [label_[name]++] stores the incremented counter as an
    [int]. *)
Definition CreateTensorVar (name : string) : M Var :=
  let! lbl := get label_ in
  match lbl !! name with
  | None => modify (set_label (insert name 0))
  | Some _ => ret tt
  end ;;
  let! lbl := get label_ in
  let label := default 0 (lbl !! name) in
  modify (set_label (insert name (wrap_int (label + 1)))) ;;
  MakeVar (fullname name label).

(** [Var CreateNull(const std::string& name = "n")] *)
Definition CreateNull (name : string) : M Var :=
  let! var := CreateTensorVar name in
  modify (set_vset (insert var ∅)) ;;
  ret var.

(** [Var CreateTensor(const std::string& name = "t")] *)
Definition CreateTensor (name : string) : M Var :=
  let! var := CreateTensorVar name in
  modify (set_vset (insert var {[var]})) ;;
  ret var.

(** ** Set helpers and the tables' accessors *)

(** [static VSet Remove(const VSet& vset1, const VSet& vset2)]: erase
    each element of [vset2] from a copy of [vset1]. *)
Definition Remove_vset (vset1 vset2 : VSet) : VSet :=
  foldl (fun ret var => ret ∖ {[var]}) vset1 (elements vset2).

(** [static VSet Merge(const VSet& vset1, const VSet& vset2)]: insert the
    range of [vset2] into a copy of [vset1]. *)
Definition Merge_vset (vset1 vset2 : VSet) : VSet :=
  vset1 ∪ vset2.

(** [Var Remove(Var v1, Var v2)] *)
Definition Remove (v1 v2 : Var) : M Var :=
  let! vset1 := at_ vset_ v1 in
  let! vset2 := at_ vset_ v2 in
  let! rs := CreateTensorVar "rs" in
  modify (set_vset (insert rs (Remove_vset vset1 vset2))) ;;
  ret rs.

(** [Var Merge(Var v1, Var v2)] *)
Definition Merge (v1 v2 : Var) : M Var :=
  let! vset1 := at_ vset_ v1 in
  let! vset2 := at_ vset_ v2 in
  let! ms := CreateTensorVar "ms" in
  modify (set_vset (insert ms (Merge_vset vset1 vset2))) ;;
  ret ms.

(** The loop [for (i = 2; i < n; ++i) ret = Merge(ret, vars[i])]. *)
Fixpoint Merge_loop (ret0 : Var) (vars : list Var) : M Var :=
  match vars with
  | [] => ret ret0
  | v :: vars' => let! r := Merge ret0 v in Merge_loop r vars'
  end.

(** [Var Merge(Array<Var> vars)] *)
Definition Merge_array (vars : list Var) : M Var :=
  match vars with
  | [] => CreateNull "n"
  | [v0] =>
      let! vs := get vset_ in
      CHECK (bool_decide (is_Some (vs !! v0))) ;;
      ret v0
  | v0 :: v1 :: rest =>
      let! r := Merge v0 v1 in
      Merge_loop r rest
  end.

(** [Var GetTensorVar(const Var& x)] *)
Definition GetTensorVar (x : Var) : M Var :=
  let! vset := at_ vset_ x in
  if bool_decide (size vset ≠ 1%nat) then ret Var_null
  else ret (hd Var_null (elements vset)).

(** ** The union-find forest *)

(** [Var Find(const Var& x)].  The code recurses along the parent chain;
    [fuel] bounds the depth of the recursion, and [OutOfFuel] stands for
    a chain longer than that (a chain that runs into a cycle never
    returns). *)
Fixpoint Find (fuel : nat) (x : Var) : M Var :=
  match fuel with
  | O => fun _ => OutOfFuel
  | S fuel' =>
      let! forest := get union_find_forest_ in
      CHECK (bool_decide (is_Some (forest !! x))) ;;
      let! parent := at_ union_find_forest_ x in
      if bool_decide (x = parent) then ret x
      else
        let! parent := at_ union_find_forest_ x in
        let! root := Find fuel' parent in
        modify (set_forest (insert x root)) ;;
        ret root
  end.

(** [Var Unite(const Var& x, const Var& y)].  In the last statement
    [inv_live_[fy]] default-constructs a missing entry before
    [inv_live_.at(fx)] is read (the order C++17 fixes). *)
Definition Unite (fuel : nat) (x y : Var) : M Var :=
  let! fx := Find fuel x in
  let! fy := Find fuel y in
  modify (set_forest (insert fx fy)) ;;
  let! inv := get inv_live_ in
  let sy := default ∅ (inv !! fy) in
  modify (set_inv_live (insert fy sy)) ;;
  let! sx := at_ inv_live_ fx in
  modify (set_inv_live (insert fy (sy ∪ sx))) ;;
  ret fy.

(** [bool Intersect(const Var& x, const Var& y)]: the loop over [sx]
    returns at the first element found in [sy]. *)
Definition Intersect (x y : Var) : M bool :=
  let! sx := at_ inv_live_ x in
  let! sy := at_ inv_live_ y in
  ret (existsb (fun v => bool_decide (v ∈ sy)) (elements sx)).

(** ** Creating variables from a type *)

(** The types [VarCreator] is run on.  [TypeFunctor] dispatches on the
    node kind; [VarCreator] overrides the tensor and the tuple case, and
    every other kind of type reaches the functor's default, which is
    fatal. *)
#[warnings="-register-all"]
Inductive IRType : Type :=
  | TensorType
  | TupleType (fields : list IRType)
  | OtherType.

Module VarCreator.

(** [VisitType], with the two [VisitType_] overrides (tensor node and
    tuple node) inlined; [VisitFields] is the loop that visits each
    field and pushes its variable. *)
Fixpoint VisitType (ty : IRType) : M Var :=
  match ty with
  | TensorType => CreateTensor "t"
  | TupleType fields =>
      let! fields' :=
        (fix VisitFields (fs : list IRType) : M (list Var) :=
           match fs with
           | [] => ret []
           | field :: fs' =>
               let! var := VisitType field in
               let! vars := VisitFields fs' in
               ret (var :: vars)
           end) fields in
      let! tvar := Merge_array fields' in
      modify (set_vtuple (insert tvar fields')) ;;
      ret tvar
  | OtherType => fail Fatal
  end.

Fixpoint VisitFields (fs : list IRType) : M (list Var) :=
  match fs with
  | [] => ret []
  | field :: fs' =>
      let! var := VisitType field in
      let! vars := VisitFields fs' in
      ret (var :: vars)
  end.

(** [Var Run(const Type& type)] *)
Definition Run (ty : IRType) : M Var := VisitType ty.

End VarCreator.

(** ** The backward pass's liveness step *)

Module BackwardAnalyzer.

(** [Var MergeLive(const Var& cur, const Var& def = Var())]; the member
    [next_var_] of the backward analyzer is passed explicitly. *)
Definition MergeLive (next_var_ : Var) (cur def : Var) : M Var :=
  let! next_line_var := CreateTensorVar "ml" in
  let! l := at_ live_ next_var_ in
  modify (set_vset (insert next_line_var l)) ;;
  let! remain :=
    (if defined def then Remove next_line_var def else ret next_line_var) in
  Merge remain cur.

End BackwardAnalyzer.

(** ** Initialising a variable from another *)

(** [void Init(Var to, Var from)].  [vtuple_] is a TVM [Map]: [count],
    [at] and [Set].  In [vset_[to] = vset_[from]] both subscripts
    default-construct a missing entry; whichever is evaluated first, the
    two entries exist afterwards and hold the set [from] had (empty when
    it had none). *)
Definition Init (to from : Var) : M unit :=
  let! vt := get vtuple_ in
  match vt !! from with
  | Some _ =>
      CHECK (bool_decide (vt !! to = None)) ;;
      let! fields := at_ vtuple_ from in
      modify (set_vtuple (insert to fields))
  | None => ret tt
  end ;;
  let! vs := get vset_ in
  CHECK (bool_decide (vs !! to = None)) ;;
  let s := default ∅ (vs !! from) in
  modify (set_vset (fun m => <[to := s]> (<[from := s]> m))).

(** ** Specification vocabulary *)

(** [root_of f x r]: following parents from [x] in the forest [f] ends
    at [r], a unit that is its own parent. *)
Inductive root_of (f : gmap Var Var) : Var → Var → Prop :=
  | root_of_self x :
      f !! x = Some x → root_of f x x
  | root_of_step x p r :
      f !! x = Some p → x ≠ p → root_of f p r → root_of f x r.

(** A forest proper: every unit in it has a root (no dangling parent, no
    cycle). *)
Definition wf_forest (f : gmap Var Var) : Prop :=
  ∀ x, is_Some (f !! x) → ∃ r, root_of f x r.

(** Types made of tensors and tuples only. *)
Fixpoint structural (ty : IRType) : bool :=
  match ty with
  | TensorType => true
  | TupleType fields => forallb structural fields
  | OtherType => false
  end.

(** Successive calls [CreateTensorVar(name)], one per element. *)
Fixpoint CreateTensorVars (names : list string) : M (list Var) :=
  match names with
  | [] => ret []
  | name :: names' =>
      let! v := CreateTensorVar name in
      let! vs := CreateTensorVars names' in
      ret (v :: vs)
  end.

(** The handle the next [MakeVar] returns, and the members after
    [CreateTensorVar(name)]. *)
Definition fresh_var (st : analyzer) : Var := Var_obj (length (var_store st)).

Definition next_label (st : analyzer) (name : string) : Z :=
  default 0 (label_ st !! name).

Definition created (name : string) (st : analyzer) : analyzer :=
  set_var_store (fun h => (h ++ [fullname name (next_label st name)])%list)
    (set_label (insert name (wrap_int (next_label st name + 1))) st).

(** [st'] comes from [st] by creating variables: the store has grown
    and the [vset_] entry of every handle of [st] is as it was. *)
Definition vset_frame (st st' : analyzer) : Prop :=
  (length (var_store st) ≤ length (var_store st'))%nat ∧
  ∀ z, allocated st z → vset_ st' !! z = vset_ st !! z.

(** A handle of the store that has a [vset_] entry. *)
Definition has_vset (st : analyzer) (v : Var) : Prop :=
  allocated st v ∧ is_Some (vset_ st !! v).

(** The union of the [vset_] entries of a list of variables. *)
Definition union_of (st : analyzer) (vars : list Var) : gset Var :=
  ⋃ (map (fun v => default ∅ (vset_ st !! v)) vars).

(** No character of the string is an underscore. *)
Fixpoint no_underscore (s : string) : Prop :=
  match s with
  | EmptyString => True
  | String c s' => c ≠ "_"%char ∧ no_underscore s'
  end.

(** The full name of a (prefix, counter) pair. *)
Definition pair_name (pk : string * Z) : string := fullname pk.1 pk.2.

(** [on_path f x z]: [z] lies on the parent chain that starts at [x]. *)
Inductive on_path (f : gmap Var Var) : Var → Var → Prop :=
  | on_path_here x :
      on_path f x x
  | on_path_next x p z :
      f !! x = Some p → x ≠ p → on_path f p z → on_path f x z.

(** [hits_missing f x]: the parent chain from [x] runs into a unit that
    is not a key of the forest. *)
Inductive hits_missing (f : gmap Var Var) : Var → Prop :=
  | hits_missing_here x :
      f !! x = None → hits_missing f x
  | hits_missing_next x p :
      f !! x = Some p → x ≠ p → hits_missing f p → hits_missing f x.

(** [never_exits f x]: every unit on the parent chain from [x] has a
    parent other than itself (the chain runs into a cycle). *)
Definition never_exits (f : gmap Var Var) (x : Var) : Prop :=
  ∀ z, on_path f x z → ∃ p, f !! z = Some p ∧ z ≠ p.

(** The number of tensor leaves of a type. *)
Fixpoint leaves (ty : IRType) : nat :=
  match ty with
  | TensorType => 1
  | TupleType fields => list_sum (map leaves fields)
  | OtherType => 0
  end.

(** A unit minted between [st] and [st']: a new object that denotes
    itself. *)
Definition fresh_unit (st st' : analyzer) (u : Var) : Prop :=
  ¬ allocated st u ∧ allocated st' u ∧ vset_ st' !! u = Some {[u]}.

(** What a creator does with the prefix [name]: the variable [v] is a
    new object named [name_k], [k] the counter of [name] before the
    call; the store gains that one node; the counter of [name] is
    incremented and no other counter changes. *)
Definition newly_named (st st' : analyzer) (name : string) (v : Var) : Prop :=
  defined v = true ∧ ¬ allocated st v ∧ allocated st' v ∧
  name_hint st' v = Some (fullname name (next_label st name)) ∧
  var_store st' = (var_store st ++ [fullname name (next_label st name)])%list ∧
  label_ st' = <[name := wrap_int (next_label st name + 1)]> (label_ st) ∧
  (0 ≤ next_label st name < INT_MAX → next_label st' name = next_label st name + 1) ∧
  (∀ p, p ≠ name → next_label st' p = next_label st p).

(** A variable created for the type [ty] between [st] and [st']: a new
    object whose unit-set has one unit per tensor leaf of [ty], each a
    unit minted in between. *)
Definition minted (st st' : analyzer) (ty : IRType) (v : Var) : Prop :=
  defined v = true ∧ ¬ allocated st v ∧ allocated st' v ∧
  ∃ s, vset_ st' !! v = Some s ∧ size s = leaves ty ∧
       ∀ u, u ∈ s → fresh_unit st st' u.

(** How often [p] occurs in [names]. *)
Definition occurrences (p : string) (names : list string) : nat :=
  length (filter (fun q => q = p) names).

(** Sample tables: three units, each its own class, with live ranges
    [{p}], [{q}] and [{q}] over two anchors. *)
Definition unit_a : Var := Var_obj 0.
Definition unit_r : Var := Var_obj 1.
Definition unit_b : Var := Var_obj 2.
Definition anchor_p : Var := Var_obj 3.
Definition anchor_q : Var := Var_obj 4.

Definition sample_tables : analyzer :=
  mk_analyzer ∅ ∅ ∅ ∅
    (<[unit_a := unit_a]> (<[unit_r := unit_r]> (<[unit_b := unit_b]> ∅)))
    (<[unit_a := {[anchor_p]}]> (<[unit_r := {[anchor_q]}]> (<[unit_b := {[anchor_q]}]> ∅)))
    ["a"; "r"; "b"; "p"; "q"].

(** The sample after [Unite(a, r)]. *)
Definition sample_united : analyzer :=
  match Unite 1 unit_a unit_r sample_tables with
  | Ok (_, st) => st
  | _ => sample_tables
  end.

(** * Properties *)

Ltac mstep :=
  unfold bind, ret, fail, get, modify, at_, CHECK in *; simpl in *.

Lemma analyzer_eta (st : analyzer) :
  mk_analyzer (vset_ st) (vtuple_ st) (live_ st) (label_ st)
              (union_find_forest_ st) (inv_live_ st) (var_store st) = st.
Proof. destruct st; reflexivity. Qed.

(** ** Accessors *)

Lemma Intersect_eq (st : analyzer) (x y : Var) (sx sy : gset Var) :
  inv_live_ st !! x = Some sx →
  inv_live_ st !! y = Some sy →
  Intersect x y st = Ok (existsb (fun v => bool_decide (v ∈ sy)) (elements sx), st).
Proof. intros Hx Hy. unfold Intersect. mstep. rewrite Hx, Hy. reflexivity. Qed.

Lemma Intersect_true_iff (sx sy : gset Var) :
  existsb (fun v => bool_decide (v ∈ sy)) (elements sx) = true ↔
  ∃ v, v ∈ sx ∧ v ∈ sy.
Proof.
  rewrite existsb_exists. split.
  - intros (v & Hin & Hv). exists v. split.
    + apply elem_of_elements, list_elem_of_In, Hin.
    + apply bool_decide_eq_true in Hv. exact Hv.
  - intros (v & Hx & Hy). exists v. split.
    + apply list_elem_of_In, elem_of_elements, Hx.
    + apply bool_decide_eq_true. exact Hy.
Qed.

(** C6: on a variable with a [vset_] entry, [GetTensorVar] returns the
    unit of the entry when the entry is a singleton, and the null
    variable when the entry is empty or has two or more elements; the
    tables are left as they were. *)
Theorem GetTensorVar_spec (st : analyzer) (x : Var) (s : gset Var) :
  vset_ st !! x = Some s →
  (size s = 1%nat → ∃ u, s = {[u]} ∧ GetTensorVar x st = Ok (u, st)) ∧
  (∀ u, s = {[u]} → GetTensorVar x st = Ok (u, st)) ∧
  (size s ≠ 1%nat → GetTensorVar x st = Ok (Var_null, st)).
Proof.
  intros Hx.
  assert (Hsingle : ∀ u, s = {[u]} → GetTensorVar x st = Ok (u, st)).
  { intros u ->. unfold GetTensorVar. mstep. rewrite Hx.
    rewrite size_singleton. rewrite bool_decide_eq_false_2 by auto.
    rewrite elements_singleton. reflexivity. }
  split; [|split].
  - intros Hsz. apply size_1_elem_of in Hsz as [u Hu].
    apply leibniz_equiv in Hu. exists u. split; [exact Hu | apply Hsingle, Hu].
  - exact Hsingle.
  - intros Hsz. unfold GetTensorVar. mstep. rewrite Hx.
    rewrite bool_decide_eq_true_2 by exact Hsz. reflexivity.
Qed.

Lemma GetTensorVar_spec_witness :
  let st := set_vset (insert (Var_obj 0) {[Var_obj 3]}) (new_analyzer ["a"]) in
  (size ({[Var_obj 3]} : gset Var) = 1%nat →
     ∃ u, ({[Var_obj 3]} : gset Var) = {[u]} ∧ GetTensorVar (Var_obj 0) st = Ok (u, st)) ∧
  (∀ u, ({[Var_obj 3]} : gset Var) = {[u]} → GetTensorVar (Var_obj 0) st = Ok (u, st)) ∧
  (size ({[Var_obj 3]} : gset Var) ≠ 1%nat → GetTensorVar (Var_obj 0) st = Ok (Var_null, st)).
Proof.
  intros st.
  apply (GetTensorVar_spec st (Var_obj 0) {[Var_obj 3]}).
  reflexivity.
Defined.

(** C8: for units that have [inv_live_] entries, [Intersect] returns, and
    returns the same answer with its arguments swapped. *)
Theorem Intersect_symmetric (st : analyzer) (a b : Var) :
  is_Some (inv_live_ st !! a) →
  is_Some (inv_live_ st !! b) →
  ∃ r, Intersect a b st = Ok (r, st) ∧ Intersect b a st = Ok (r, st).
Proof.
  intros [sa Ha] [sb Hb].
  rewrite (Intersect_eq st a b sa sb Ha Hb), (Intersect_eq st b a sb sa Hb Ha).
  eexists. split; [reflexivity|]. do 2 f_equal.
  apply eq_true_iff_eq. rewrite !Intersect_true_iff.
  split; intros (v & ? & ?); exists v; auto.
Qed.

Lemma Intersect_symmetric_witness :
  let st := set_inv_live (insert (Var_obj 0) {[Var_obj 5]})
              (set_inv_live (insert (Var_obj 1) {[Var_obj 5; Var_obj 6]})
                 (new_analyzer ["a"; "b"])) in
  ∃ r, Intersect (Var_obj 0) (Var_obj 1) st = Ok (r, st) ∧
       Intersect (Var_obj 1) (Var_obj 0) st = Ok (r, st).
Proof.
  intros st.
  apply (Intersect_symmetric st (Var_obj 0) (Var_obj 1)).
  - exists {[Var_obj 5]}. reflexivity.
  - exists {[Var_obj 5; Var_obj 6]}. reflexivity.
Defined.

(** C9: [Find] on a unit that is not a key of the forest fails its
    [CHECK]; [Intersect] with an argument that has no [inv_live_] entry,
    and [GetTensorVar] on a variable that has no [vset_] entry, throw
    [std::out_of_range].  None returns a value. *)
Theorem contract_violations_abort (st : analyzer) (x : Var) :
  (union_find_forest_ st !! x = None →
     ∀ fuel, Find (S fuel) x st = Err CheckFailed) ∧
  (inv_live_ st !! x = None →
     ∀ y, Intersect x y st = Err OutOfRange ∧ Intersect y x st = Err OutOfRange) ∧
  (vset_ st !! x = None → GetTensorVar x st = Err OutOfRange).
Proof.
  split; [|split].
  - intros Hx fuel. simpl. mstep. rewrite Hx.
    rewrite bool_decide_eq_false_2; [reflexivity|].
    intros [? ?]; discriminate.
  - intros Hx y. unfold Intersect. mstep. rewrite Hx. split; [reflexivity|].
    destruct (inv_live_ st !! y); simpl; rewrite ?Hx; reflexivity.
  - intros Hx. unfold GetTensorVar. mstep. rewrite Hx. reflexivity.
Qed.

Lemma contract_violations_abort_witness :
  let st := new_analyzer ["a"] in
  (∀ fuel, Find (S fuel) (Var_obj 0) st = Err CheckFailed) ∧
  (∀ y, Intersect (Var_obj 0) y st = Err OutOfRange ∧
        Intersect y (Var_obj 0) st = Err OutOfRange) ∧
  GetTensorVar (Var_obj 0) st = Err OutOfRange.
Proof.
  intros st.
  destruct (contract_violations_abort st (Var_obj 0)) as (HF & HI & HG).
  split; [|split].
  - apply HF. reflexivity.
  - apply HI. reflexivity.
  - apply HG. reflexivity.
Defined.

(** ** The forest: roots and path compression *)

Lemma Find_S (fuel : nat) (x : Var) (st : analyzer) :
  Find (S fuel) x st =
  match union_find_forest_ st !! x with
  | None => Err CheckFailed
  | Some p =>
      if bool_decide (x = p) then Ok (x, st)
      else match Find fuel p st with
           | Ok (root, st') => Ok (root, set_forest (insert x root) st')
           | Err e => Err e
           | OutOfFuel => OutOfFuel
           end
  end.
Proof.
  simpl. mstep. destruct (union_find_forest_ st !! x) as [p|] eqn:Hx; simpl.
  - rewrite Hx. destruct (bool_decide (x = p)); [reflexivity|].
    rewrite Hx. destruct (Find fuel p st) as [[root st']| |]; reflexivity.
  - reflexivity.
Qed.

Lemma root_of_is_root (f : gmap Var Var) (x r : Var) :
  root_of f x r → f !! r = Some r.
Proof. induction 1; assumption. Qed.

Lemma root_of_inj (f : gmap Var Var) (x r1 r2 : Var) :
  root_of f x r1 → root_of f x r2 → r1 = r2.
Proof.
  intros H1. revert r2. induction H1 as [x Hx | x p r Hx Hne _ IH]; intros r2 H2.
  - inversion H2; subst; [reflexivity | congruence].
  - inversion H2; subst; [congruence|].
    apply IH. congruence.
Qed.

Lemma root_of_root (f : gmap Var Var) (r r' : Var) :
  f !! r = Some r → root_of f r r' → r' = r.
Proof.
  intros Hr H. apply (root_of_inj f r); [exact H | constructor; exact Hr].
Qed.

(** Redirecting a unit to its own root changes no unit's root. *)
Lemma root_of_compress (f : gmap Var Var) (x r : Var) :
  root_of f x r →
  ∀ z r', root_of (<[x := r]> f) z r' ↔ root_of f z r'.
Proof.
  intros Hxr z r'.
  pose proof (root_of_is_root _ _ _ Hxr) as Hr.
  destruct (decide (x = r)) as [->|Hne].
  { rewrite insert_id by exact Hr. reflexivity. }
  split.
  - induction 1 as [z Hz | z p r' Hz Hzp _ IH].
    + destruct (decide (x = z)) as [->|Hxz].
      * rewrite lookup_insert_eq in Hz. congruence.
      * rewrite lookup_insert_ne in Hz by exact Hxz. constructor; exact Hz.
    + destruct (decide (x = z)) as [->|Hxz].
      * rewrite lookup_insert_eq in Hz. injection Hz as <-.
        rewrite (root_of_root f r r' Hr IH). exact Hxr.
      * rewrite lookup_insert_ne in Hz by exact Hxz.
        eapply root_of_step; eauto.
  - induction 1 as [z Hz | z p r' Hz Hzp Hp IH].
    + destruct (decide (x = z)) as [->|Hxz].
      * exfalso. apply Hne. symmetry.
        apply (root_of_root f z r); [exact Hz | exact Hxr].
      * constructor. rewrite lookup_insert_ne by exact Hxz. exact Hz.
    + destruct (decide (x = z)) as [->|Hxz].
      * assert (r' = r) as ->.
        { apply (root_of_inj f z); [eapply root_of_step; eauto | exact Hxr]. }
        eapply root_of_step; [apply lookup_insert_eq | exact Hne |].
        constructor. rewrite lookup_insert_ne by exact Hne. exact Hr.
      * eapply root_of_step; [|exact Hzp|exact IH].
        rewrite lookup_insert_ne by exact Hxz. exact Hz.
Qed.

(** [Find] on a unit that has a root returns that root once the fuel
    covers the chain; it rewrites only the forest, and every unit keeps
    its root. *)
Lemma Find_root (st : analyzer) (x r : Var) :
  root_of (union_find_forest_ st) x r →
  ∃ n f',
    (∀ fuel, (n ≤ fuel)%nat → Find fuel x st = Ok (r, set_forest (fun _ => f') st)) ∧
    (∀ z r', root_of f' z r' ↔ root_of (union_find_forest_ st) z r') ∧
    f' !! x = Some r ∧
    dom f' = dom (union_find_forest_ st).
Proof.
  remember (union_find_forest_ st) as f eqn:Hf.
  induction 1 as [x Hx | x p r Hx Hne Hp IH].
  - exists 1%nat, f. split; [|split; [|split]]; [|reflexivity|exact Hx|reflexivity].
    intros [|fuel] Hle; [lia|].
    rewrite Find_S, <- Hf, Hx, bool_decide_eq_true_2 by reflexivity.
    rewrite Hf. unfold set_forest. rewrite analyzer_eta. reflexivity.
  - destruct IH as (n & f1 & Hrun & Hroots & Hf1p & Hdom).
    exists (S n), (<[x := r]> f1).
    assert (Hxr1 : root_of f1 x r).
    { apply Hroots. eapply root_of_step; eauto. }
    split; [|split; [|split]].
    + intros [|fuel] Hle; [lia|].
      rewrite Find_S, <- Hf, Hx, bool_decide_eq_false_2 by exact Hne.
      rewrite Hrun by lia. reflexivity.
    + intros z r'. rewrite (root_of_compress f1 x r Hxr1). apply Hroots.
    + apply lookup_insert_eq.
    + rewrite dom_insert_L, Hdom.
      apply subseteq_union_1_L, singleton_subseteq_l, elem_of_dom. eauto.
Qed.

(** After [Find x], the forest is a fixed point of [Find x]. *)
Lemma Find_again (st : analyzer) (x r : Var) :
  union_find_forest_ st !! x = Some r →
  union_find_forest_ st !! r = Some r →
  ∀ fuel, Find (S (S fuel)) x st = Ok (r, st).
Proof.
  intros Hx Hr fuel. rewrite Find_S, Hx.
  destruct (bool_decide (x = r)) eqn:Hxr.
  - apply bool_decide_eq_true in Hxr. subst. reflexivity.
  - rewrite Find_S, Hr, bool_decide_eq_true_2 by reflexivity.
    unfold set_forest. rewrite insert_id by exact Hx.
    rewrite analyzer_eta. reflexivity.
Qed.

(** C5: on a unit of a well-formed forest [Find] returns (with enough
    fuel for the chain) a representative [r]; [r] is its own parent in
    the forest [Find] leaves, and there [Find r] and [Find x] both
    return [r] and change nothing: [Find(Find(x)) == Find(x)]. *)
Theorem Find_idempotent (st : analyzer) (x : Var) :
  wf_forest (union_find_forest_ st) →
  is_Some (union_find_forest_ st !! x) →
  ∃ r st1,
    (∃ n, ∀ fuel, (n ≤ fuel)%nat → Find fuel x st = Ok (r, st1)) ∧
    union_find_forest_ st1 !! r = Some r ∧
    (∀ fuel, Find (S fuel) r st1 = Ok (r, st1)) ∧
    (∀ fuel, Find (S (S fuel)) x st1 = Ok (r, st1)).
Proof.
  intros Hwf Hx. destruct (Hwf x Hx) as [r Hr].
  destruct (Find_root st x r Hr) as (n & f' & Hrun & Hroots & Hfx & _).
  assert (Hfr : f' !! r = Some r).
  { apply (root_of_is_root f' x), Hroots, Hr. }
  exists r, (set_forest (fun _ => f') st).
  split; [exists n; exact Hrun|]. split; [exact Hfr|]. split.
  - intros fuel. rewrite Find_S. simpl. rewrite Hfr.
    rewrite bool_decide_eq_true_2 by reflexivity. reflexivity.
  - intros fuel. apply Find_again; simpl; assumption.
Qed.

Lemma Find_idempotent_witness :
  let st := set_forest (fun _ => <[Var_obj 0 := Var_obj 1]> (<[Var_obj 1 := Var_obj 1]> ∅))
              (new_analyzer ["a"; "b"]) in
  ∃ r st1,
    (∃ n, ∀ fuel, (n ≤ fuel)%nat → Find fuel (Var_obj 0) st = Ok (r, st1)) ∧
    union_find_forest_ st1 !! r = Some r ∧
    (∀ fuel, Find (S fuel) r st1 = Ok (r, st1)) ∧
    (∀ fuel, Find (S (S fuel)) (Var_obj 0) st1 = Ok (r, st1)).
Proof.
  intros st. apply (Find_idempotent st (Var_obj 0)).
  - intros x [p Hp]. simpl in Hp.
    assert (Hroot : root_of (union_find_forest_ st) (Var_obj 1) (Var_obj 1)).
    { constructor. reflexivity. }
    apply lookup_insert_Some in Hp as [[<- <-] | [_ Hp]].
    + exists (Var_obj 1). eapply root_of_step; [reflexivity | discriminate | exact Hroot].
    + apply lookup_insert_Some in Hp as [[<- <-] | [_ Hp]].
      * exists (Var_obj 1). exact Hroot.
      * rewrite lookup_empty in Hp. discriminate.
  - exists (Var_obj 1). reflexivity.
Defined.

(** ** Merging two classes *)

(** Making the root [rx] a child of the root [ry] sends the units of
    [rx]'s class to [ry] and leaves every other unit's root alone. *)
Lemma root_of_link (f : gmap Var Var) (rx ry : Var) :
  f !! rx = Some rx →
  f !! ry = Some ry →
  ∀ z r, root_of f z r →
         root_of (<[rx := ry]> f) z (if decide (r = rx) then ry else r).
Proof.
  intros Hrx Hry z r. induction 1 as [z Hz | z p r Hz Hzp _ IH].
  - destruct (decide (z = rx)) as [->|Hne].
    + destruct (decide (rx = ry)) as [->|Hxy].
      * constructor. apply lookup_insert_eq.
      * eapply root_of_step; [apply lookup_insert_eq | exact Hxy |].
        constructor. rewrite lookup_insert_ne by exact Hxy. exact Hry.
    + constructor. rewrite lookup_insert_ne by auto. exact Hz.
  - assert (z ≠ rx) by congruence.
    eapply root_of_step; [|exact Hzp|exact IH].
    rewrite lookup_insert_ne by auto. exact Hz.
Qed.

Lemma wf_forest_link (f : gmap Var Var) (rx ry : Var) :
  f !! rx = Some rx →
  f !! ry = Some ry →
  wf_forest f →
  wf_forest (<[rx := ry]> f).
Proof.
  intros Hrx Hry Hwf z Hz.
  assert (Hz' : is_Some (f !! z)).
  { destruct (decide (rx = z)) as [<-|Hne]; [eauto|].
    rewrite lookup_insert_ne in Hz by exact Hne. exact Hz. }
  destruct (Hwf z Hz') as [r Hr].
  eexists. apply root_of_link; eauto.
Qed.

Lemma wf_forest_agree (f f' : gmap Var Var) :
  (∀ z r, root_of f' z r ↔ root_of f z r) →
  dom f' = dom f →
  wf_forest f →
  wf_forest f'.
Proof.
  intros Hroots Hdom Hwf z Hz.
  apply elem_of_dom in Hz. rewrite Hdom in Hz. apply elem_of_dom in Hz.
  destruct (Hwf z Hz) as [r Hr]. exists r. apply Hroots, Hr.
Qed.

(** The forest right after the analysis, each unit its own parent. *)
Lemma wf_forest_identity (units : gset Var) :
  wf_forest (set_to_map (fun v => (v, v)) units).
Proof.
  assert (Hinj : ∀ y y' : Var, y ∈ units → y' ∈ units → (y, y).1 = (y', y').1 → y = y').
  { intros y y' _ _ Heq. exact Heq. }
  intros z [p Hp]. apply lookup_set_to_map in Hp as (v & Hin & Heq); [|exact Hinj].
  simplify_eq. exists p. constructor.
  apply lookup_set_to_map; [exact Hinj|]. exists p. split; [exact Hin | reflexivity].
Qed.

(** What [Unite] does on two units that have roots, when the root of
    the first has an [inv_live_] entry. *)
Lemma Unite_spec (st : analyzer) (x y rx ry : Var) (sx : gset Var) :
  root_of (union_find_forest_ st) x rx →
  root_of (union_find_forest_ st) y ry →
  inv_live_ st !! rx = Some sx →
  ∃ n f2,
    (∀ z r, root_of f2 z r ↔ root_of (union_find_forest_ st) z r) ∧
    dom f2 = dom (union_find_forest_ st) ∧
    ∀ fuel, (n ≤ fuel)%nat →
      Unite fuel x y st =
      Ok (ry, set_inv_live (insert ry (default ∅ (inv_live_ st !! ry) ∪ sx))
                (set_forest (fun _ => <[rx := ry]> f2) st)).
Proof.
  intros Hx Hy Hsx.
  destruct (Find_root st x rx Hx) as (n1 & f1 & Hrun1 & Hroots1 & _ & Hdom1).
  assert (Hy1 : root_of (union_find_forest_ (set_forest (fun _ => f1) st)) y ry).
  { simpl. apply Hroots1, Hy. }
  destruct (Find_root _ y ry Hy1) as (n2 & f2 & Hrun2 & Hroots2 & _ & Hdom2).
  simpl in Hroots2, Hdom2.
  exists (n1 `max` n2)%nat, f2. split; [|split].
  - intros z r. rewrite Hroots2. apply Hroots1.
  - rewrite Hdom2. exact Hdom1.
  - intros fuel Hle. unfold Unite, bind at 1. rewrite Hrun1 by lia.
    unfold bind at 1. rewrite Hrun2 by lia. mstep.
    destruct (decide (ry = rx)) as [->|Hne].
    + rewrite lookup_insert_eq, Hsx. simpl.
      unfold set_inv_live, set_forest. simpl.
      rewrite insert_insert_eq. reflexivity.
    + rewrite lookup_insert_ne, Hsx by exact Hne.
      unfold set_inv_live, set_forest. simpl.
      rewrite insert_insert_eq. reflexivity.
Qed.

(** [Find] and [Unite] keep the forest well formed. *)
Lemma Find_preserves_wf (st : analyzer) (x : Var) :
  wf_forest (union_find_forest_ st) →
  is_Some (union_find_forest_ st !! x) →
  ∃ n r st',
    (∀ fuel, (n ≤ fuel)%nat → Find fuel x st = Ok (r, st')) ∧
    wf_forest (union_find_forest_ st').
Proof.
  intros Hwf Hx. destruct (Hwf x Hx) as [r Hr].
  destruct (Find_root st x r Hr) as (n & f' & Hrun & Hroots & _ & Hdom).
  exists n, r, (set_forest (fun _ => f') st). split; [exact Hrun|].
  simpl. eapply wf_forest_agree; eauto.
Qed.

Lemma Unite_preserves_wf (st : analyzer) (x y rx ry : Var) (sx : gset Var) :
  wf_forest (union_find_forest_ st) →
  root_of (union_find_forest_ st) x rx →
  root_of (union_find_forest_ st) y ry →
  inv_live_ st !! rx = Some sx →
  ∃ n st',
    (∀ fuel, (n ≤ fuel)%nat → Unite fuel x y st = Ok (ry, st')) ∧
    wf_forest (union_find_forest_ st').
Proof.
  intros Hwf Hx Hy Hsx.
  destruct (Unite_spec st x y rx ry sx Hx Hy Hsx) as (n & f2 & Hroots & Hdom & Hrun).
  eexists n, _. split; [exact Hrun|]. simpl.
  apply wf_forest_link.
  - apply (root_of_is_root f2 x), Hroots, Hx.
  - apply (root_of_is_root f2 y), Hroots, Hy.
  - eapply wf_forest_agree; eauto.
Qed.

(** C2: for units [a] and [b] of the forest with roots [ra] and [rb]
    that have [inv_live_] entries [sa] and [sb], [Unite(a, b)] returns;
    afterwards [Find(a)] and [Find(b)] both return [rb], and the
    [inv_live_] entry of [rb] is [sb ∪ sa], which contains both [sa] and
    [sb]. *)
Theorem Unite_joins_and_keeps_liveness
    (st : analyzer) (a b ra rb : Var) (sa sb : gset Var) :
  root_of (union_find_forest_ st) a ra →
  root_of (union_find_forest_ st) b rb →
  inv_live_ st !! ra = Some sa →
  inv_live_ st !! rb = Some sb →
  ∃ n st',
    (∀ fuel, (n ≤ fuel)%nat → Unite fuel a b st = Ok (rb, st')) ∧
    (∃ m s1 s2, ∀ fuel, (m ≤ fuel)%nat →
        Find fuel a st' = Ok (rb, s1) ∧ Find fuel b s1 = Ok (rb, s2)) ∧
    (∃ m s1, ∀ fuel, (m ≤ fuel)%nat → Find fuel b st' = Ok (rb, s1)) ∧
    union_find_forest_ st' !! rb = Some rb ∧
    ∃ s', inv_live_ st' !! rb = Some s' ∧ s' = sb ∪ sa ∧ sa ⊆ s' ∧ sb ⊆ s'.
Proof.
  intros Ha Hb Hsa Hsb.
  destruct (Unite_spec st a b ra rb sa Ha Hb Hsa) as (n & f2 & Hroots & _ & Hrun).
  eexists n, _. split; [exact Hrun|].
  assert (Hra : f2 !! ra = Some ra).
  { apply (root_of_is_root f2 a), Hroots, Ha. }
  assert (Hrb : f2 !! rb = Some rb).
  { apply (root_of_is_root f2 b), Hroots, Hb. }
  assert (Ha' : root_of (<[ra := rb]> f2) a rb).
  { pose proof (root_of_link f2 ra rb Hra Hrb a ra (proj2 (Hroots _ _) Ha)) as H.
    rewrite decide_True in H by reflexivity. exact H. }
  assert (Hb' : root_of (<[ra := rb]> f2) b rb).
  { pose proof (root_of_link f2 ra rb Hra Hrb b rb (proj2 (Hroots _ _) Hb)) as H.
    destruct (decide (rb = ra)); exact H. }
  set (st' := set_inv_live _ _).
  destruct (Find_root st' a rb Ha') as (m1 & g1 & Hrun1 & Hroots1 & _ & _).
  assert (Hb1 : root_of (union_find_forest_ (set_forest (fun _ => g1) st')) b rb).
  { simpl. apply Hroots1, Hb'. }
  destruct (Find_root _ b rb Hb1) as (m2 & g2 & Hrun2 & _).
  destruct (Find_root st' b rb Hb') as (m3 & g3 & Hrun3 & _).
  split; [|split; [|split]].
  - exists (m1 `max` m2)%nat. eexists _, _. intros fuel Hle. split.
    + apply Hrun1. lia.
    + apply Hrun2. lia.
  - exists m3. eexists. exact Hrun3.
  - apply (root_of_is_root _ b), Hb'.
  - exists (sb ∪ sa). simpl. rewrite lookup_insert_eq, Hsb. simpl.
    split; [reflexivity|]. split; [reflexivity|].
    split; [apply union_subseteq_r | apply union_subseteq_l].
Qed.

Lemma Unite_joins_and_keeps_liveness_witness :
  ∃ n st',
    (∀ fuel, (n ≤ fuel)%nat → Unite fuel unit_a unit_r sample_tables = Ok (unit_r, st')) ∧
    (∃ m s1 s2, ∀ fuel, (m ≤ fuel)%nat →
        Find fuel unit_a st' = Ok (unit_r, s1) ∧ Find fuel unit_r s1 = Ok (unit_r, s2)) ∧
    (∃ m s1, ∀ fuel, (m ≤ fuel)%nat → Find fuel unit_r st' = Ok (unit_r, s1)) ∧
    union_find_forest_ st' !! unit_r = Some unit_r ∧
    ∃ s', inv_live_ st' !! unit_r = Some s' ∧ s' = {[anchor_q]} ∪ {[anchor_p]} ∧
          {[anchor_p]} ⊆ s' ∧ {[anchor_q]} ⊆ s'.
Proof.
  apply (Unite_joins_and_keeps_liveness sample_tables unit_a unit_r unit_a unit_r).
  - constructor. reflexivity.
  - constructor. reflexivity.
  - reflexivity.
  - reflexivity.
Defined.

(** C10, as the code has it: for units [x] and [y] with roots [rx] and
    [ry], [rx] having an [inv_live_] entry, [Unite(x, y)] returns [ry],
    which stays its own parent; when the two roots differ, [rx] becomes
    a child of [ry]; when [x] and [y] are already in one class, the
    root stays a root. *)
Theorem Unite_grafts_under_second
    (st : analyzer) (x y rx ry : Var) (sx : gset Var) :
  root_of (union_find_forest_ st) x rx →
  root_of (union_find_forest_ st) y ry →
  inv_live_ st !! rx = Some sx →
  ∃ n s st',
    (∀ fuel, (n ≤ fuel)%nat →
       Find fuel y st = Ok (ry, s) ∧ Unite fuel x y st = Ok (ry, st')) ∧
    union_find_forest_ st' !! ry = Some ry ∧
    (rx ≠ ry → union_find_forest_ st' !! rx = Some ry) ∧
    (rx = ry → union_find_forest_ st' !! rx = Some rx).
Proof.
  intros Hx Hy Hsx.
  destruct (Unite_spec st x y rx ry sx Hx Hy Hsx) as (n & f2 & Hroots & _ & Hrun).
  destruct (Find_root st y ry Hy) as (n' & f' & Hrun' & _).
  assert (Hry : f2 !! ry = Some ry).
  { apply (root_of_is_root f2 y), Hroots, Hy. }
  exists (n `max` n')%nat. eexists _, _. split; [|split; [|split]].
  - intros fuel Hle. split; [apply Hrun'; lia | apply Hrun; lia].
  - simpl. destruct (decide (rx = ry)) as [->|Hne].
    + apply lookup_insert_eq.
    + rewrite lookup_insert_ne by exact Hne. exact Hry.
  - intros _. simpl. apply lookup_insert_eq.
  - intros ->. simpl. apply lookup_insert_eq.
Qed.

Lemma Unite_grafts_under_second_witness :
  ∃ n s st',
    (∀ fuel, (n ≤ fuel)%nat →
       Find fuel unit_r sample_tables = Ok (unit_r, s) ∧
       Unite fuel unit_a unit_r sample_tables = Ok (unit_r, st')) ∧
    union_find_forest_ st' !! unit_r = Some unit_r ∧
    (unit_a ≠ unit_r → union_find_forest_ st' !! unit_a = Some unit_r) ∧
    (unit_a = unit_r → union_find_forest_ st' !! unit_a = Some unit_a).
Proof.
  apply (Unite_grafts_under_second sample_tables unit_a unit_r unit_a unit_r {[anchor_p]}).
  - constructor. reflexivity.
  - constructor. reflexivity.
  - reflexivity.
Defined.

(** C10 as stated fails when the two units are in one class already:
    [Unite(a, a)] returns [a] and [a] is still its own parent, not a
    child. *)
Lemma Unite_same_class_keeps_root :
  ∃ st',
    Find 1 unit_a sample_tables = Ok (unit_a, sample_tables) ∧
    Unite 1 unit_a unit_a sample_tables = Ok (unit_a, st') ∧
    union_find_forest_ st' !! unit_a = Some unit_a.
Proof.
  exists (match Unite 1 unit_a unit_a sample_tables with
          | Ok (_, s) => s
          | _ => sample_tables
          end).
  split; [reflexivity|]. split; [reflexivity|]. reflexivity.
Qed.

(** ** The intersection test *)

(** C1, as the code has it: on units [a] and [b] with [inv_live_]
    entries, [Intersect(a, b)] returns true iff the entries of [a] and
    [b] themselves share an anchor; it does not call [Find].  When [a]
    and [b] are roots of the forest, [Find] returns them unchanged, and
    the test is then the test on the canonical representatives. *)
Theorem Intersect_tests_own_entries
    (st : analyzer) (a b : Var) (sa sb : gset Var) :
  inv_live_ st !! a = Some sa →
  inv_live_ st !! b = Some sb →
  ∃ res,
    Intersect a b st = Ok (res, st) ∧
    (res = true ↔ ∃ v, v ∈ sa ∧ v ∈ sb) ∧
    (union_find_forest_ st !! a = Some a →
     union_find_forest_ st !! b = Some b →
     ∀ fuel, Find (S fuel) a st = Ok (a, st) ∧ Find (S fuel) b st = Ok (b, st)).
Proof.
  intros Ha Hb. eexists. split; [apply (Intersect_eq st a b sa sb Ha Hb)|].
  split; [apply Intersect_true_iff|].
  intros Hra Hrb fuel. rewrite !Find_S, Hra, Hrb.
  rewrite !bool_decide_eq_true_2 by reflexivity. split; reflexivity.
Qed.

Lemma Intersect_tests_own_entries_witness :
  ∃ res,
    Intersect unit_r unit_b sample_tables = Ok (res, sample_tables) ∧
    (res = true ↔ ∃ v, v ∈ ({[anchor_q]} : gset Var) ∧ v ∈ ({[anchor_q]} : gset Var)) ∧
    (union_find_forest_ sample_tables !! unit_r = Some unit_r →
     union_find_forest_ sample_tables !! unit_b = Some unit_b →
     ∀ fuel, Find (S fuel) unit_r sample_tables = Ok (unit_r, sample_tables) ∧
             Find (S fuel) unit_b sample_tables = Ok (unit_b, sample_tables)).
Proof.
  apply (Intersect_tests_own_entries sample_tables unit_r unit_b).
  - reflexivity.
  - reflexivity.
Defined.

(** C1 as stated fails: after [Unite(a, r)] the canonical representative
    of [a] is [r], and the entries of [r] and of [b] (its own
    representative) share the anchor [q]; yet [Intersect(a, b)] answers
    false, from the stale entry of [a]. *)
Lemma Intersect_ignores_representatives :
  Unite 1 unit_a unit_r sample_tables = Ok (unit_r, sample_united) ∧
  (∃ s, Find 2 unit_a sample_united = Ok (unit_r, s)) ∧
  Find 1 unit_b sample_united = Ok (unit_b, sample_united) ∧
  (∃ sr sb, inv_live_ sample_united !! unit_r = Some sr ∧
            inv_live_ sample_united !! unit_b = Some sb ∧
            anchor_q ∈ sr ∧ anchor_q ∈ sb) ∧
  Intersect unit_a unit_b sample_united = Ok (false, sample_united).
Proof.
  split; [reflexivity|].
  split.
  { exists (match Find 2 unit_a sample_united with
            | Ok (_, s) => s
            | _ => sample_united
            end). reflexivity. }
  split; [reflexivity|].
  split; [|reflexivity].
  exists ({[anchor_q]} ∪ {[anchor_p]}), {[anchor_q]}.
  split; [reflexivity|]. split; [reflexivity|].
  split; [apply elem_of_union_l|]; apply elem_of_singleton; reflexivity.
Qed.

(** ** Creating variables *)

Lemma CreateTensorVar_eq (name : string) (st : analyzer) :
  CreateTensorVar name st = Ok (fresh_var st, created name st).
Proof.
  unfold CreateTensorVar, created, fresh_var, next_label, MakeVar. mstep.
  destruct (label_ st !! name) as [c|] eqn:Hc; simpl.
  - rewrite Hc. reflexivity.
  - rewrite lookup_insert_eq. simpl.
    unfold set_var_store, set_label. simpl.
    rewrite insert_insert_eq. reflexivity.
Qed.

Lemma allocated_ne_fresh (st : analyzer) (v : Var) :
  allocated st v → v ≠ fresh_var st.
Proof. intros Hv ->. simpl in Hv. lia. Qed.

Lemma allocated_created (name : string) (st : analyzer) (v : Var) :
  allocated st v → allocated (created name st) v.
Proof.
  destruct v as [|a]; simpl; [auto|]. rewrite length_app. simpl. lia.
Qed.

Lemma allocated_fresh_created (name : string) (st : analyzer) :
  allocated (created name st) (fresh_var st).
Proof. simpl. rewrite length_app. simpl. lia. Qed.

Lemma Remove_vset_eq (vset1 vset2 : gset Var) :
  Remove_vset vset1 vset2 = vset1 ∖ vset2.
Proof.
  unfold Remove_vset.
  rewrite <- (list_to_set_elements_L vset2) at 2.
  generalize (elements vset2) as l. intros l. revert vset1.
  induction l as [|v l IH]; intros vset1; simpl.
  - apply set_eq. intros z. rewrite elem_of_difference, elem_of_empty. tauto.
  - rewrite IH. apply set_eq. intros z.
    rewrite !elem_of_difference, elem_of_union, elem_of_singleton. tauto.
Qed.

Lemma CreateNull_eq (name : string) (st : analyzer) :
  CreateNull name st =
  Ok (fresh_var st, set_vset (insert (fresh_var st) ∅) (created name st)).
Proof. unfold CreateNull, bind at 1. rewrite CreateTensorVar_eq. reflexivity. Qed.

Lemma CreateTensor_eq (name : string) (st : analyzer) :
  CreateTensor name st =
  Ok (fresh_var st,
      set_vset (insert (fresh_var st) {[fresh_var st]}) (created name st)).
Proof. unfold CreateTensor, bind at 1. rewrite CreateTensorVar_eq. reflexivity. Qed.

Lemma Remove_eq (st : analyzer) (v1 v2 : Var) (s1 s2 : gset Var) :
  vset_ st !! v1 = Some s1 →
  vset_ st !! v2 = Some s2 →
  Remove v1 v2 st =
  Ok (fresh_var st, set_vset (insert (fresh_var st) (s1 ∖ s2)) (created "rs" st)).
Proof.
  intros H1 H2. unfold Remove. mstep. rewrite H1. simpl. rewrite H2.
  rewrite CreateTensorVar_eq, Remove_vset_eq. reflexivity.
Qed.

Lemma Merge_eq (st : analyzer) (v1 v2 : Var) (s1 s2 : gset Var) :
  vset_ st !! v1 = Some s1 →
  vset_ st !! v2 = Some s2 →
  Merge v1 v2 st =
  Ok (fresh_var st, set_vset (insert (fresh_var st) (s1 ∪ s2)) (created "ms" st)).
Proof.
  intros H1 H2. unfold Merge. mstep. rewrite H1. simpl. rewrite H2.
  rewrite CreateTensorVar_eq. reflexivity.
Qed.

Lemma allocated_mono (st st' : analyzer) (v : Var) :
  (length (var_store st) ≤ length (var_store st'))%nat →
  allocated st v → allocated st' v.
Proof. destruct v; simpl; [auto | lia]. Qed.

Lemma vset_frame_refl (st : analyzer) : vset_frame st st.
Proof. split; [lia | reflexivity]. Qed.

Lemma vset_frame_trans (st1 st2 st3 : analyzer) :
  vset_frame st1 st2 → vset_frame st2 st3 → vset_frame st1 st3.
Proof.
  intros [Hl1 H1] [Hl2 H2]. split; [lia|].
  intros z Hz. rewrite H2, H1; eauto using allocated_mono.
Qed.

Lemma vset_frame_created (name : string) (st : analyzer) (s : gset Var) :
  vset_frame st (set_vset (insert (fresh_var st) s) (created name st)).
Proof.
  split.
  - simpl. rewrite length_app. simpl. lia.
  - intros z Hz. simpl. apply lookup_insert_ne.
    intros Heq. symmetry in Heq. revert Heq. apply allocated_ne_fresh, Hz.
Qed.

(** ** The liveness step *)

(** C3: when [live_[next_var_]] is [l] and [cur] has the [vset_] entry
    [sc], [MergeLive(cur, def)] returns a variable whose [vset_] entry
    is [l ∪ sc] when [def] is undefined, and [(l ∖ sd) ∪ sc] when [def]
    is defined with entry [sd]; the entries of the variables that
    existed before the call are unchanged. *)
Theorem MergeLive_spec
    (st : analyzer) (next_var_ cur def : Var) (l sc : gset Var) :
  live_ st !! next_var_ = Some l →
  vset_ st !! cur = Some sc →
  allocated st cur →
  (def = Var_null →
     ∃ res st', BackwardAnalyzer.MergeLive next_var_ cur def st = Ok (res, st') ∧
                vset_ st' !! res = Some (l ∪ sc) ∧
                vset_frame st st') ∧
  (∀ sd, defined def = true →
         allocated st def →
         vset_ st !! def = Some sd →
     ∃ res st', BackwardAnalyzer.MergeLive next_var_ cur def st = Ok (res, st') ∧
                vset_ st' !! res = Some ((l ∖ sd) ∪ sc) ∧
                vset_frame st st').
Proof.
  intros Hl Hc Hac.
  set (st1 := set_vset (insert (fresh_var st) l) (created "ml" st)).
  assert (Hf1 : vset_frame st st1) by apply vset_frame_created.
  assert (Hstep : ∀ k : Var → M Var,
    bind (CreateTensorVar "ml")
         (fun nlv => let! l := at_ live_ next_var_ in
                     modify (set_vset (insert nlv l)) ;; k nlv) st =
    k (fresh_var st) st1).
  { intros k. unfold bind at 1. rewrite CreateTensorVar_eq. mstep.
    rewrite Hl. reflexivity. }
  assert (Hv1 : vset_ st1 !! fresh_var st = Some l) by apply lookup_insert_eq.
  assert (Hc1 : vset_ st1 !! cur = Some sc).
  { destruct Hf1 as [_ Hf1]. rewrite Hf1 by exact Hac. exact Hc. }
  split.
  - intros ->. unfold BackwardAnalyzer.MergeLive. cbn [defined].
    rewrite (Hstep (fun nlv => let! remain := ret nlv in Merge remain cur)).
    unfold bind, ret. rewrite (Merge_eq st1 _ cur l sc Hv1 Hc1).
    eexists _, _. split; [reflexivity|]. split.
    + apply lookup_insert_eq.
    + eapply vset_frame_trans; [exact Hf1 | apply vset_frame_created].
  - intros sd Hdef Had Hd. unfold BackwardAnalyzer.MergeLive. rewrite Hdef.
    rewrite (Hstep (fun nlv => let! remain := Remove nlv def in Merge remain cur)).
    assert (Hd1 : vset_ st1 !! def = Some sd).
    { destruct Hf1 as [_ Hf1]. rewrite Hf1 by exact Had. exact Hd. }
    unfold bind. rewrite (Remove_eq st1 _ def l sd Hv1 Hd1).
    set (st2 := set_vset (insert (fresh_var st1) (l ∖ sd)) (created "rs" st1)).
    assert (Hf2 : vset_frame st1 st2) by apply vset_frame_created.
    assert (Hc2 : vset_ st2 !! cur = Some sc).
    { destruct Hf2 as [_ Hf2]. rewrite Hf2; [exact Hc1|].
      eapply allocated_mono; [apply Hf1 | exact Hac]. }
    assert (Hv2 : vset_ st2 !! fresh_var st1 = Some (l ∖ sd)) by apply lookup_insert_eq.
    rewrite (Merge_eq st2 _ cur _ sc Hv2 Hc2).
    eexists _, _. split; [reflexivity|]. split.
    + apply lookup_insert_eq.
    + eapply vset_frame_trans; [exact Hf1|].
      eapply vset_frame_trans; [exact Hf2 | apply vset_frame_created].
Qed.

Lemma MergeLive_spec_witness :
  let st :=
    mk_analyzer (<[Var_obj 1 := {[Var_obj 5]}]> (<[Var_obj 2 := {[Var_obj 3]}]> ∅)) ∅
      (<[Var_obj 0 := {[Var_obj 3; Var_obj 4]}]> ∅) ∅ ∅ ∅
      ["next"; "cur"; "def"; "t_0"; "t_1"; "t_2"] in
  (∃ res st', BackwardAnalyzer.MergeLive (Var_obj 0) (Var_obj 1) Var_null st = Ok (res, st') ∧
              vset_ st' !! res = Some ({[Var_obj 3; Var_obj 4]} ∪ {[Var_obj 5]}) ∧
              vset_frame st st') ∧
  (∃ res st', BackwardAnalyzer.MergeLive (Var_obj 0) (Var_obj 1) (Var_obj 2) st = Ok (res, st') ∧
              vset_ st' !! res =
                Some (({[Var_obj 3; Var_obj 4]} ∖ {[Var_obj 3]}) ∪ {[Var_obj 5]}) ∧
              vset_frame st st').
Proof.
  intros st. split.
  - apply (MergeLive_spec st (Var_obj 0) (Var_obj 1) Var_null
             {[Var_obj 3; Var_obj 4]} {[Var_obj 5]});
      [reflexivity | reflexivity | simpl; lia | reflexivity].
  - apply (MergeLive_spec st (Var_obj 0) (Var_obj 1) (Var_obj 2)
             {[Var_obj 3; Var_obj 4]} {[Var_obj 5]});
      [reflexivity | reflexivity | simpl; lia | reflexivity | simpl; lia | reflexivity].
Defined.

(** ** Variables for a type *)

Lemma IRType_nested_ind (P : IRType → Prop) :
  P TensorType →
  (∀ fields, Forall P fields → P (TupleType fields)) →
  P OtherType →
  ∀ ty, P ty.
Proof.
  intros Htensor Htuple Hother. fix IH 1. intros [|fields|].
  - exact Htensor.
  - apply Htuple. revert fields. fix IHfields 1. intros [|field fields].
    + constructor.
    + constructor; [apply IH | apply IHfields].
  - exact Hother.
Qed.

Lemma VisitType_tuple (fields : list IRType) (st : analyzer) :
  VarCreator.VisitType (TupleType fields) st =
  (let! fields' := VarCreator.VisitFields fields in
   let! tvar := Merge_array fields' in
   modify (set_vtuple (insert tvar fields')) ;;
   ret tvar) st.
Proof. reflexivity. Qed.

Lemma has_vset_frame (st st' : analyzer) (v : Var) :
  vset_frame st st' → has_vset st v → has_vset st' v.
Proof.
  intros [Hlen Hframe] [Ha Hs]. split.
  - eapply allocated_mono; eauto.
  - rewrite Hframe by exact Ha. exact Hs.
Qed.

Lemma union_of_frame (st st' : analyzer) (vars : list Var) :
  vset_frame st st' →
  Forall (has_vset st) vars →
  union_of st' vars = union_of st vars.
Proof.
  intros [_ Hframe]. unfold union_of. induction 1 as [|v vars [Ha _] _ IH]; simpl.
  - reflexivity.
  - rewrite Hframe by exact Ha. rewrite IH. reflexivity.
Qed.

Lemma union_of_cons (st : analyzer) (v : Var) (vars : list Var) (s : gset Var) :
  vset_ st !! v = Some s →
  union_of st (v :: vars) = s ∪ union_of st vars.
Proof. intros Hv. unfold union_of. simpl. rewrite Hv. reflexivity. Qed.

Lemma has_vset_created (name : string) (st : analyzer) (s : gset Var) :
  has_vset (set_vset (insert (fresh_var st) s) (created name st)) (fresh_var st).
Proof.
  split.
  - apply allocated_fresh_created.
  - exists s. apply lookup_insert_eq.
Qed.

Lemma Merge_loop_spec (vars : list Var) :
  ∀ (st : analyzer) (r : Var) (acc : gset Var),
    allocated st r →
    vset_ st !! r = Some acc →
    Forall (has_vset st) vars →
    ∃ res st',
      Merge_loop r vars st = Ok (res, st') ∧
      vset_ st' !! res = Some (acc ∪ union_of st vars) ∧
      allocated st' res ∧ vset_frame st st'.
Proof.
  induction vars as [|v vars IH]; intros st r acc Har Hr Hall.
  - exists r, st. simpl. split; [reflexivity|]. split.
    + rewrite Hr. f_equal. unfold union_of. simpl. apply set_eq. intros z.
      rewrite elem_of_union, elem_of_empty. tauto.
    + split; [exact Har | apply vset_frame_refl].
  - inversion Hall as [|? ? [Hav [sv Hv]] Hall']; subst.
    simpl. unfold bind at 1. rewrite (Merge_eq st r v acc sv Hr Hv).
    set (st1 := set_vset _ _).
    assert (Hf1 : vset_frame st st1) by apply vset_frame_created.
    destruct (IH st1 (fresh_var st) (acc ∪ sv)) as (res & st' & Hrun & Hres & Hares & Hf').
    + apply allocated_fresh_created.
    + apply lookup_insert_eq.
    + eapply Forall_impl; [exact Hall'|]. intros z. apply has_vset_frame, Hf1.
    + exists res, st'. split; [exact Hrun|]. split; [|split].
      * rewrite Hres. f_equal.
        rewrite (union_of_frame st st1 vars Hf1 Hall').
        rewrite (union_of_cons st v vars sv Hv).
        apply set_eq. intros z. rewrite !elem_of_union. tauto.
      * exact Hares.
      * eapply vset_frame_trans; eauto.
Qed.

Lemma Merge_array_spec (vars : list Var) (st : analyzer) :
  Forall (has_vset st) vars →
  ∃ res st',
    Merge_array vars st = Ok (res, st') ∧
    vset_ st' !! res = Some (union_of st vars) ∧
    allocated st' res ∧ vset_frame st st'.
Proof.
  intros Hall. destruct vars as [|v0 [|v1 rest]].
  - rewrite (CreateNull_eq "n" st : Merge_array [] st = _).
    eexists _, _. split; [reflexivity|]. split; [|split].
    + apply lookup_insert_eq.
    + apply allocated_fresh_created.
    + apply vset_frame_created.
  - inversion Hall as [|? ? [Ha0 [s0 H0]] _]; subst.
    exists v0, st. split; [|split; [|split]].
    + simpl. mstep. rewrite bool_decide_eq_true_2 by eauto. reflexivity.
    + rewrite H0. f_equal. rewrite (union_of_cons st v0 [] s0 H0).
      unfold union_of. simpl. apply set_eq. intros z.
      rewrite elem_of_union, elem_of_empty. tauto.
    + exact Ha0.
    + apply vset_frame_refl.
  - inversion Hall as [|? ? [Ha0 [s0 H0]] Hall1]; subst.
    inversion Hall1 as [|? ? [Ha1 [s1 H1]] Hall2]; subst.
    simpl. unfold bind at 1. rewrite (Merge_eq st v0 v1 s0 s1 H0 H1).
    set (st1 := set_vset _ _).
    assert (Hf1 : vset_frame st st1) by apply vset_frame_created.
    destruct (Merge_loop_spec rest st1 (fresh_var st) (s0 ∪ s1))
      as (res & st' & Hrun & Hres & Hares & Hf').
    + apply allocated_fresh_created.
    + apply lookup_insert_eq.
    + eapply Forall_impl; [exact Hall2|]. intros z. apply has_vset_frame, Hf1.
    + exists res, st'. split; [exact Hrun|]. split; [|split].
      * rewrite Hres. f_equal.
        rewrite (union_of_frame st st1 rest Hf1 Hall2).
        rewrite (union_of_cons st v0 (v1 :: rest) s0 H0).
        rewrite (union_of_cons st v1 rest s1 H1).
        apply set_eq. intros z. rewrite !elem_of_union. tauto.
      * exact Hares.
      * eapply vset_frame_trans; eauto.
Qed.

Lemma VisitFields_spec (fs : list IRType) :
  Forall (fun ty => structural ty = true →
                    ∀ st, ∃ v st', VarCreator.VisitType ty st = Ok (v, st') ∧
                                   has_vset st' v ∧ vset_frame st st') fs →
  forallb structural fs = true →
  ∀ st, ∃ vs st',
    VarCreator.VisitFields fs st = Ok (vs, st') ∧
    length vs = length fs ∧
    Forall (has_vset st') vs ∧
    vset_frame st st'.
Proof.
  induction 1 as [|ty fs Hty _ IH]; intros Hstr st.
  - exists [], st. split; [reflexivity|]. split; [reflexivity|].
    split; [constructor | apply vset_frame_refl].
  - simpl in Hstr. apply andb_prop in Hstr as [Hs Hss].
    destruct (Hty Hs st) as (v & st1 & Hrun1 & Hv & Hf1).
    destruct (IH Hss st1) as (vs & st2 & Hrun2 & Hlen & Hvs & Hf2).
    exists (v :: vs), st2. split; [|split; [|split]].
    + simpl. unfold bind at 1. rewrite Hrun1. unfold bind at 1. rewrite Hrun2.
      reflexivity.
    + simpl. rewrite Hlen. reflexivity.
    + constructor; [eapply has_vset_frame; eauto | exact Hvs].
    + eapply vset_frame_trans; eauto.
Qed.

Lemma VisitTuple_spec (fields : list IRType) (st st1 : analyzer) (fvs : list Var) :
  VarCreator.VisitFields fields st = Ok (fvs, st1) →
  Forall (has_vset st1) fvs →
  ∃ tvar st',
    VarCreator.VisitType (TupleType fields) st = Ok (tvar, st') ∧
    vtuple_ st' !! tvar = Some fvs ∧
    vset_ st' !! tvar = Some (union_of st' fvs) ∧
    Forall (has_vset st') fvs ∧
    has_vset st' tvar ∧
    vset_frame st1 st'.
Proof.
  intros Hrun Hall.
  destruct (Merge_array_spec fvs st1 Hall) as (tvar & st2 & Hm & Hres & Ha & Hf).
  exists tvar, (set_vtuple (insert tvar fvs) st2).
  split; [|split; [|split; [|split; [|split]]]].
  - rewrite VisitType_tuple. unfold bind at 1. rewrite Hrun.
    unfold bind at 1. rewrite Hm. reflexivity.
  - simpl. apply lookup_insert_eq.
  - simpl. rewrite Hres. f_equal. symmetry.
    apply (union_of_frame st1 (set_vtuple (insert tvar fvs) st2) fvs); [exact Hf | exact Hall].
  - eapply Forall_impl; [exact Hall|]. intros z Hz.
    apply (has_vset_frame st1 st2 z Hf Hz).
  - split; [exact Ha | simpl; rewrite Hres; eauto].
  - exact Hf.
Qed.

Lemma VisitType_ok (ty : IRType) :
  structural ty = true →
  ∀ st, ∃ v st', VarCreator.VisitType ty st = Ok (v, st') ∧
                 has_vset st' v ∧ vset_frame st st'.
Proof.
  induction ty as [|fields IH|] using IRType_nested_ind; intros Hstr st.
  - eexists _, _. split; [apply (CreateTensor_eq "t" st)|].
    split; [apply has_vset_created | apply vset_frame_created].
  - destruct (VisitFields_spec fields IH Hstr st) as (fvs & st1 & Hrun & _ & Hall & Hf1).
    destruct (VisitTuple_spec fields st st1 fvs Hrun Hall)
      as (tvar & st' & Hrun' & _ & _ & _ & Hv & Hf2).
    exists tvar, st'. split; [exact Hrun'|]. split; [exact Hv|].
    eapply vset_frame_trans; eauto.
  - discriminate.
Qed.

(** ** Names of synthesized variables *)

Lemma no_underscore_app (s1 s2 : string) :
  ¬ no_underscore (s1 +:+ "_" +:+ s2).
Proof.
  induction s1 as [|c s1 IH]; simpl.
  - intros [Hc _]. apply Hc. reflexivity.
  - intros [_ H]. apply IH, H.
Qed.

Lemma append_underscore_inj (n1 n2 d1 d2 : string) :
  no_underscore d1 → no_underscore d2 →
  n1 +:+ "_" +:+ d1 = n2 +:+ "_" +:+ d2 →
  n1 = n2 ∧ d1 = d2.
Proof.
  intros Hd1 Hd2. revert n2.
  induction n1 as [|c n1 IH]; intros [|c' n2] Heq; simpl in Heq.
  - injection Heq as Heq. split; [reflexivity | exact Heq].
  - injection Heq as _ Heq. change ("" +:+ d1) with d1 in Heq.
    exfalso. rewrite Heq in Hd1. exact (no_underscore_app _ _ Hd1).
  - injection Heq as _ Heq. change ("" +:+ d2) with d2 in Heq.
    exfalso. rewrite <- Heq in Hd2. exact (no_underscore_app _ _ Hd2).
  - injection Heq as Hc Heq.
    destruct (IH n2 Heq) as [-> ->]. rewrite Hc. split; reflexivity.
Qed.

Lemma string_of_uint_no_underscore (d : Decimal.uint) :
  no_underscore (NilEmpty.string_of_uint d).
Proof. induction d; simpl; (exact I || (split; [discriminate | assumption])). Qed.

Lemma to_string_no_underscore (n : Z) : no_underscore (to_string n).
Proof.
  unfold to_string. destruct (Z.to_int n) as [d|d]; simpl.
  - apply string_of_uint_no_underscore.
  - split; [discriminate | apply string_of_uint_no_underscore].
Qed.

Lemma to_string_inj (n1 n2 : Z) : to_string n1 = to_string n2 → n1 = n2.
Proof.
  unfold to_string. intros Heq. apply DecimalZ.to_int_inj.
  apply (f_equal NilEmpty.int_of_string) in Heq.
  rewrite !NilEmpty.isi in Heq. congruence.
Qed.

Lemma pair_name_inj (pk1 pk2 : string * Z) :
  pair_name pk1 = pair_name pk2 → pk1 = pk2.
Proof.
  destruct pk1 as [p1 k1], pk2 as [p2 k2]. unfold pair_name, fullname. simpl.
  intros Heq.
  apply append_underscore_inj in Heq as [-> Hk]; try apply to_string_no_underscore.
  apply to_string_inj in Hk as ->. reflexivity.
Qed.

Lemma wrap_int_in_range (z : Z) :
  INT_MIN ≤ z ≤ INT_MAX → wrap_int z = z.
Proof.
  unfold wrap_int, INT_MIN, INT_MAX. intros Hz.
  rewrite Z.mod_small by lia. lia.
Qed.

Lemma next_label_created (name p : string) (st : analyzer) :
  next_label (created name st) p =
  if decide (name = p) then wrap_int (next_label st name + 1) else next_label st p.
Proof.
  unfold next_label at 1. simpl. destruct (decide (name = p)) as [->|Hne].
  - rewrite lookup_insert_eq. reflexivity.
  - rewrite lookup_insert_ne by exact Hne. reflexivity.
Qed.

Lemma name_hints_appended (pre : list string) (pairs : list (string * Z)) :
  ∀ (st : analyzer) (post : list string),
    var_store st = (pre ++ map pair_name pairs ++ post)%list →
    Forall2 (fun v nm => name_hint st v = Some nm)
            (map Var_obj (seq (length pre) (length pairs)))
            (map pair_name pairs).
Proof.
  revert pre. induction pairs as [|pk pairs IH]; intros pre st post Hst; simpl.
  - constructor.
  - constructor.
    + unfold name_hint. rewrite Hst.
      rewrite lookup_app_r by lia. rewrite Nat.sub_diag. reflexivity.
    + replace (S (length pre)) with (length (pre ++ [pair_name pk])%list)
        by (rewrite length_app; simpl; lia).
      apply (IH _ st post). rewrite Hst. simpl.
      rewrite <- app_assoc. reflexivity.
Qed.

(** A run of [CreateTensorVar] calls that stays within the range of
    the counters: the variables are new consecutive objects, the names
    appended to the store are those of pairwise different (prefix,
    counter) pairs, each counter used lies between the prefix's counter
    before and after the run, and no counter grows by more than the
    number of calls. *)
Lemma CreateTensorVars_spec (names : list string) :
  ∀ st,
    (∀ p, 0 ≤ next_label st p) →
    (∀ p, next_label st p + Z.of_nat (length names) ≤ INT_MAX) →
    ∃ pairs st',
      CreateTensorVars names st =
        Ok (map Var_obj (seq (length (var_store st)) (length pairs)), st') ∧
      length pairs = length names ∧
      var_store st' = (var_store st ++ map pair_name pairs)%list ∧
      NoDup pairs ∧
      (∀ pk, pk ∈ pairs → next_label st pk.1 ≤ pk.2 < next_label st' pk.1) ∧
      (∀ p, next_label st p ≤ next_label st' p ≤ next_label st p + Z.of_nat (length names)).
Proof.
  induction names as [|name names IH]; intros st Hlow0 Hup0.
  - exists [], st. simpl. split; [reflexivity|]. split; [reflexivity|].
    split; [rewrite app_nil_r; reflexivity|]. split; [constructor|].
    split; [intros pk Hpk; inversion Hpk | intros p; lia].
  - assert (Hstep : ∀ p, next_label (created name st) p =
                         if decide (name = p) then next_label st name + 1
                         else next_label st p).
    { intros p. rewrite next_label_created.
      destruct (decide (name = p)); [|reflexivity].
      apply wrap_int_in_range. pose proof (Hlow0 name). pose proof (Hup0 name) as Hn.
      simpl length in Hn. unfold INT_MIN. lia. }
    destruct (IH (created name st)) as (pairs & st' & Hrun & Hlen & Hstore & Hnd & Hlow & Hup).
    { intros p. rewrite Hstep. pose proof (Hlow0 p). pose proof (Hlow0 name).
      destruct (decide (name = p)); lia. }
    { intros p. rewrite Hstep. pose proof (Hup0 p) as Hp. pose proof (Hup0 name) as Hn.
      simpl length in Hp, Hn. destruct (decide (name = p)); lia. }
    exists ((name, next_label st name) :: pairs), st'.
    split; [|split; [|split; [|split; [|split]]]].
    + simpl. unfold bind at 1. rewrite CreateTensorVar_eq.
      unfold bind at 1. rewrite Hrun. unfold ret. simpl.
      rewrite length_app. simpl. rewrite Nat.add_1_r. reflexivity.
    + simpl. rewrite Hlen. reflexivity.
    + rewrite Hstore. simpl. rewrite <- app_assoc. reflexivity.
    + constructor; [|exact Hnd].
      intros Hin. apply Hlow in Hin. simpl in Hin.
      rewrite Hstep, decide_True in Hin by reflexivity. lia.
    + intros pk Hpk. apply elem_of_cons in Hpk as [->|Hpk].
      * simpl. specialize (Hup name). rewrite Hstep, decide_True in Hup by reflexivity. lia.
      * apply Hlow in Hpk. rewrite Hstep in Hpk.
        destruct (decide (name = pk.1)) as [<-|_]; lia.
    + intros p. specialize (Hup p). rewrite Hstep in Hup.
      simpl length. destruct (decide (name = p)) as [<-|_]; lia.
Qed.

(** C7, as the code has it: a run of [CreateTensorVar] calls on one
    analyzer (counters starting empty, fewer than [INT_MAX] calls so
    that no counter overflows) returns variables with pairwise
    different full names; each is a new object, different from every
    variable that existed before, those of the program included.
    Nothing is said about the names of the program's own variables. *)
Theorem CreateTensorVar_names_distinct (names : list string) (st : analyzer) :
  label_ st = ∅ →
  Z.of_nat (length names) ≤ INT_MAX →
  ∃ vs fullnames st',
    CreateTensorVars names st = Ok (vs, st') ∧
    length vs = length names ∧
    Forall2 (fun v nm => name_hint st' v = Some nm) vs fullnames ∧
    NoDup fullnames ∧
    NoDup vs ∧
    Forall (fun v => ¬ allocated st v) vs ∧
    (∀ p c, label_ st' !! p = Some c → 0 ≤ c ≤ INT_MAX).
Proof.
  intros Hempty Hlen.
  assert (Hzero : ∀ p, next_label st p = 0).
  { intros p. unfold next_label. rewrite Hempty, lookup_empty. reflexivity. }
  destruct (CreateTensorVars_spec names st)
    as (pairs & st' & Hrun & Hlenp & Hstore & Hnd & _ & Hup).
  { intros p. rewrite Hzero. lia. }
  { intros p. rewrite Hzero. lia. }
  eexists _, (map pair_name pairs), st'. split; [exact Hrun|].
  split; [|split; [|split; [|split; [|split]]]].
  - rewrite length_map, length_seq. exact Hlenp.
  - apply (name_hints_appended (var_store st) pairs st' []).
    rewrite app_nil_r. exact Hstore.
  - apply NoDup_fmap_2; [|exact Hnd].
    intros pk1 pk2. apply pair_name_inj.
  - apply NoDup_fmap_2; [intros a b Hab; congruence | apply NoDup_seq].
  - apply Forall_forall. intros v Hv.
    apply list_elem_of_fmap in Hv as (a & -> & Ha).
    apply elem_of_seq in Ha. simpl. lia.
  - intros p c Hc. specialize (Hup p). unfold next_label in Hup.
    rewrite Hc, Hempty, lookup_empty in Hup. simpl in Hup. lia.
Qed.

Lemma CreateTensorVar_names_distinct_witness :
  ∃ vs fullnames st',
    CreateTensorVars ["t"; "ms"; "t"; "t_1"] (new_analyzer ["x"; "t_0"]) = Ok (vs, st') ∧
    length vs = 4%nat ∧
    Forall2 (fun v nm => name_hint st' v = Some nm) vs fullnames ∧
    NoDup fullnames ∧
    NoDup vs ∧
    Forall (fun v => ¬ allocated (new_analyzer ["x"; "t_0"]) v) vs ∧
    (∀ p c, label_ st' !! p = Some c → 0 ≤ c ≤ INT_MAX).
Proof.
  apply (CreateTensorVar_names_distinct ["t"; "ms"; "t"; "t_1"] (new_analyzer ["x"; "t_0"])).
  - reflexivity.
  - unfold INT_MAX. simpl. lia.
Defined.

(** C7 as stated fails on the names of the program: on an analyzer
    over a program that has a variable called [t_0], the first
    [CreateTensorVar("t")] returns a variable that is also called
    [t_0]. *)
Lemma CreateTensorVar_reuses_program_name :
  ∃ v st',
    CreateTensorVar "t" (new_analyzer ["x"; "t_0"]) = Ok (v, st') ∧
    v ≠ Var_obj 1 ∧
    name_hint (new_analyzer ["x"; "t_0"]) (Var_obj 1) = Some "t_0" ∧
    name_hint st' (Var_obj 1) = Some "t_0" ∧
    name_hint st' v = Some "t_0".
Proof.
  exists (Var_obj 2), (created "t" (new_analyzer ["x"; "t_0"])).
  split; [apply CreateTensorVar_eq|]. split; [discriminate|].
  split; [reflexivity|]. split; reflexivity.
Qed.

(** * Further properties of the analyzer's members *)

(** ** Set helpers *)

(** X1: the static [Remove] (a loop of [erase]) leaves exactly the
    elements of [vset1] that are not in [vset2], and the static [Merge]
    exactly the elements of either set. *)
Theorem Remove_Merge_vset_elements (vset1 vset2 : gset Var) (v : Var) :
  (v ∈ Remove_vset vset1 vset2 ↔ v ∈ vset1 ∧ v ∉ vset2) ∧
  (v ∈ Merge_vset vset1 vset2 ↔ v ∈ vset1 ∨ v ∈ vset2).
Proof.
  split.
  - rewrite Remove_vset_eq. apply elem_of_difference.
  - unfold Merge_vset. apply elem_of_union.
Qed.

(** ** [Init] *)

(** X2: when [to] has no [vset_] entry, and no [vtuple_] entry either
    in case [from] has one, [Init(to, from)] returns; afterwards
    [vset_[to]] is the set [from] had, and [vtuple_[to]] the fields
    [from] had when it had any ([vtuple_] is left alone otherwise).  A
    [from] without a [vset_] entry does not abort: it is given an empty
    entry, and so is [to].  No other entry changes. *)
Theorem Init_copies (st : analyzer) (to from : Var) :
  vset_ st !! to = None →
  vtuple_ st !! to = None ∨ vtuple_ st !! from = None →
  ∃ st',
    Init to from st = Ok (tt, st') ∧
    vset_ st' !! to = Some (default ∅ (vset_ st !! from)) ∧
    vset_ st' !! from = Some (default ∅ (vset_ st !! from)) ∧
    (∀ fields, vtuple_ st !! from = Some fields → vtuple_ st' !! to = Some fields) ∧
    (vtuple_ st !! from = None → vtuple_ st' = vtuple_ st) ∧
    (∀ z, z ≠ to → z ≠ from → vset_ st' !! z = vset_ st !! z) ∧
    (∀ z, z ≠ to → vtuple_ st' !! z = vtuple_ st !! z).
Proof.
  intros Hto Htup. unfold Init. mstep.
  destruct (vtuple_ st !! from) as [fields|] eqn:Hfrom; simpl.
  - destruct Htup as [Htup|Htup]; [|discriminate].
    rewrite bool_decide_eq_true_2 by exact Htup. simpl.
    rewrite Hfrom. simpl. rewrite Hto. simpl.
    eexists. split; [reflexivity|]. simpl.
    split; [apply lookup_insert_eq|]. split; [|split; [|split; [|split]]].
    + destruct (decide (to = from)) as [->|Hne].
      * apply lookup_insert_eq.
      * rewrite lookup_insert_ne by exact Hne. apply lookup_insert_eq.
    + intros fields' [= <-]. apply lookup_insert_eq.
    + discriminate.
    + intros z Hz1 Hz2. rewrite !lookup_insert_ne by auto. reflexivity.
    + intros z Hz. apply lookup_insert_ne. auto.
  - rewrite Hto. simpl.
    eexists. split; [reflexivity|]. simpl.
    split; [apply lookup_insert_eq|]. split; [|split; [|split; [|split]]].
    + destruct (decide (to = from)) as [->|Hne].
      * apply lookup_insert_eq.
      * rewrite lookup_insert_ne by exact Hne. apply lookup_insert_eq.
    + discriminate.
    + reflexivity.
    + intros z Hz1 Hz2. rewrite !lookup_insert_ne by auto. reflexivity.
    + intros z Hz. reflexivity.
Qed.

Lemma Init_copies_witness :
  let st := set_vtuple (insert (Var_obj 0) [Var_obj 2; Var_obj 3])
              (set_vset (insert (Var_obj 0) {[Var_obj 2; Var_obj 3]})
                 (new_analyzer ["a"; "b"; "t_0"; "t_1"])) in
  ∃ st',
    Init (Var_obj 1) (Var_obj 0) st = Ok (tt, st') ∧
    vset_ st' !! Var_obj 1 = Some (default ∅ (vset_ st !! Var_obj 0)) ∧
    vset_ st' !! Var_obj 0 = Some (default ∅ (vset_ st !! Var_obj 0)) ∧
    (∀ fields, vtuple_ st !! Var_obj 0 = Some fields → vtuple_ st' !! Var_obj 1 = Some fields) ∧
    (vtuple_ st !! Var_obj 0 = None → vtuple_ st' = vtuple_ st) ∧
    (∀ z, z ≠ Var_obj 1 → z ≠ Var_obj 0 → vset_ st' !! z = vset_ st !! z) ∧
    (∀ z, z ≠ Var_obj 1 → vtuple_ st' !! z = vtuple_ st !! z).
Proof.
  intros st. apply (Init_copies st (Var_obj 1) (Var_obj 0)).
  - reflexivity.
  - left. reflexivity.
Defined.

(** X3: [Init] on a variable that already has a [vset_] entry fails a
    [CHECK], whatever [from] is, and so does [Init] from a variable
    with a [vtuple_] entry on a variable that has one too; so after an
    [Init(to, from)] that returned, every further [Init(to, _)] fails:
    an entry is written by [Init] once. *)
Theorem Init_once (st : analyzer) (to from : Var) :
  (is_Some (vset_ st !! to) → Init to from st = Err CheckFailed) ∧
  (is_Some (vtuple_ st !! from) → is_Some (vtuple_ st !! to) →
     Init to from st = Err CheckFailed) ∧
  (∀ st', Init to from st = Ok (tt, st') →
          ∀ from', Init to from' st' = Err CheckFailed).
Proof.
  assert (Hfail : ∀ s f, is_Some (vset_ s !! to) → Init to f s = Err CheckFailed).
  { intros s f [vs Hvs]. unfold Init. mstep.
    destruct (vtuple_ s !! f) as [fields|] eqn:Hf; simpl.
    - destruct (bool_decide (vtuple_ s !! to = None)); simpl; [|reflexivity].
      rewrite Hf. simpl. rewrite Hvs. reflexivity.
    - rewrite Hvs. reflexivity. }
  split; [apply Hfail|]. split.
  { intros [fs Hfs] [ts Hts]. unfold Init. mstep. rewrite Hfs. simpl.
    rewrite bool_decide_eq_false_2 by congruence. reflexivity. }
  intros st' Hrun from'. apply Hfail.
  destruct (vset_ st !! to) as [vs|] eqn:Hto.
  { rewrite Hfail in Hrun by eauto. discriminate. }
  unfold Init in Hrun. mstep.
  destruct (vtuple_ st !! from) as [fields|] eqn:Hf; simpl in Hrun.
  - destruct (bool_decide (vtuple_ st !! to = None)); simpl in Hrun; [|discriminate].
    rewrite Hf in Hrun. simpl in Hrun. rewrite Hto in Hrun. simpl in Hrun.
    injection Hrun as <-. simpl. rewrite lookup_insert_eq. eauto.
  - rewrite Hto in Hrun. simpl in Hrun.
    injection Hrun as <-. simpl. rewrite lookup_insert_eq. eauto.
Qed.

Lemma Init_once_witness :
  let st := set_vset (insert (Var_obj 0) {[Var_obj 2]}) (new_analyzer ["a"; "b"; "t_0"]) in
  Init (Var_obj 0) (Var_obj 1) st = Err CheckFailed ∧
  Init (Var_obj 3) (Var_obj 4)
    (set_vtuple (insert (Var_obj 3) []) (set_vtuple (insert (Var_obj 4) []) st))
    = Err CheckFailed ∧
  ∀ from', Init (Var_obj 1) from'
             (set_vset (fun m => <[Var_obj 1 := {[Var_obj 2]}]> (<[Var_obj 0 := {[Var_obj 2]}]> m)) st)
           = Err CheckFailed.
Proof.
  intros st. split; [|split].
  - apply (proj1 (Init_once st (Var_obj 0) (Var_obj 1))). exists {[Var_obj 2]}. reflexivity.
  - apply (proj1 (proj2 (Init_once _ (Var_obj 3) (Var_obj 4)))); exists []; reflexivity.
  - apply (proj2 (proj2 (Init_once st (Var_obj 1) (Var_obj 0)))). reflexivity.
Defined.

(** ** [Find]: compression, and chains that do not end in a root *)

Lemma on_path_inv (f : gmap Var Var) (x z : Var) :
  on_path f x z →
  z = x ∨ ∃ p, f !! x = Some p ∧ x ≠ p ∧ on_path f p z.
Proof. destruct 1; [left; reflexivity | right; eauto]. Qed.

Lemma on_path_root (f : gmap Var Var) (r z : Var) :
  f !! r = Some r → on_path f r z → z = r.
Proof.
  intros Hr Hp. apply on_path_inv in Hp as [->|(p & Hp & Hne & _)];
    [reflexivity | congruence].
Qed.

(** X4: [Find(x)] on a unit with root [r] returns [r] and compresses
    the whole path: afterwards every unit on the parent chain from [x]
    has [r] as its parent, and every unit off the chain has the parent
    it had.  Only the forest changes. *)
Theorem Find_compresses_path (st : analyzer) (x r : Var) :
  root_of (union_find_forest_ st) x r →
  ∃ n f',
    (∀ fuel, (n ≤ fuel)%nat → Find fuel x st = Ok (r, set_forest (fun _ => f') st)) ∧
    (∀ z, on_path (union_find_forest_ st) x z → f' !! z = Some r) ∧
    (∀ z, ¬ on_path (union_find_forest_ st) x z → f' !! z = union_find_forest_ st !! z).
Proof.
  remember (union_find_forest_ st) as f eqn:Hf.
  induction 1 as [x Hx | x p r Hx Hne Hp IH].
  - exists 1%nat, f. split; [|split].
    + intros [|fuel] Hle; [lia|].
      rewrite Find_S, <- Hf, Hx, bool_decide_eq_true_2 by reflexivity.
      rewrite Hf. unfold set_forest. rewrite analyzer_eta. reflexivity.
    + intros z Hz. rewrite (on_path_root f x z Hx Hz). exact Hx.
    + reflexivity.
  - destruct IH as (n & f1 & Hrun & Hon & Hoff).
    exists (S n), (<[x := r]> f1). split; [|split].
    + intros [|fuel] Hle; [lia|].
      rewrite Find_S, <- Hf, Hx, bool_decide_eq_false_2 by exact Hne.
      rewrite Hrun by lia. reflexivity.
    + intros z Hz. destruct (decide (x = z)) as [->|Hxz]; [apply lookup_insert_eq|].
      rewrite lookup_insert_ne by exact Hxz. apply Hon.
      apply on_path_inv in Hz as [->|(q & Hq & _ & Hqz)]; [congruence|].
      rewrite Hx in Hq. injection Hq as <-. exact Hqz.
    + intros z Hz. destruct (decide (x = z)) as [->|Hxz].
      * exfalso. apply Hz. constructor.
      * rewrite lookup_insert_ne by exact Hxz. apply Hoff.
        intros Hpz. apply Hz. eapply on_path_next; eauto.
Qed.

Lemma Find_compresses_path_witness :
  let st := set_forest (fun _ => <[Var_obj 0 := Var_obj 1]> (<[Var_obj 1 := Var_obj 2]>
                                   (<[Var_obj 2 := Var_obj 2]> (<[Var_obj 3 := Var_obj 0]> ∅))))
              (new_analyzer ["a"; "b"; "c"; "d"]) in
  ∃ n f',
    (∀ fuel, (n ≤ fuel)%nat →
       Find fuel (Var_obj 0) st = Ok (Var_obj 2, set_forest (fun _ => f') st)) ∧
    (∀ z, on_path (union_find_forest_ st) (Var_obj 0) z → f' !! z = Some (Var_obj 2)) ∧
    (∀ z, ¬ on_path (union_find_forest_ st) (Var_obj 0) z →
          f' !! z = union_find_forest_ st !! z).
Proof.
  intros st. apply (Find_compresses_path st (Var_obj 0) (Var_obj 2)).
  eapply root_of_step; [reflexivity | discriminate |].
  eapply root_of_step; [reflexivity | discriminate |].
  constructor. reflexivity.
Defined.

(** X5: [Find] changes no unit's representative and adds no key: in
    the forest it leaves, every unit has the root it had, and the keys
    are the same; the other tables are untouched. *)
Theorem Find_keeps_classes (st : analyzer) (x r : Var) :
  root_of (union_find_forest_ st) x r →
  ∃ n st',
    (∀ fuel, (n ≤ fuel)%nat → Find fuel x st = Ok (r, st')) ∧
    (∀ z r', root_of (union_find_forest_ st') z r' ↔ root_of (union_find_forest_ st) z r') ∧
    dom (union_find_forest_ st') = dom (union_find_forest_ st) ∧
    inv_live_ st' = inv_live_ st ∧ vset_ st' = vset_ st ∧
    vtuple_ st' = vtuple_ st ∧ live_ st' = live_ st.
Proof.
  intros Hr. destruct (Find_root st x r Hr) as (n & f' & Hrun & Hroots & _ & Hdom).
  exists n, (set_forest (fun _ => f') st). split; [exact Hrun|].
  split; [exact Hroots|]. split; [exact Hdom|]. repeat split.
Qed.

Lemma Find_keeps_classes_witness :
  ∃ n st',
    (∀ fuel, (n ≤ fuel)%nat → Find fuel unit_a sample_united = Ok (unit_r, st')) ∧
    (∀ z r', root_of (union_find_forest_ st') z r' ↔
             root_of (union_find_forest_ sample_united) z r') ∧
    dom (union_find_forest_ st') = dom (union_find_forest_ sample_united) ∧
    inv_live_ st' = inv_live_ sample_united ∧ vset_ st' = vset_ sample_united ∧
    vtuple_ st' = vtuple_ sample_united ∧ live_ st' = live_ sample_united.
Proof.
  apply (Find_keeps_classes sample_united unit_a unit_r).
  eapply root_of_step; [reflexivity | discriminate |].
  constructor. reflexivity.
Defined.

(** X6: when the parent chain from [x] runs into a unit that is not a
    key of the forest, [Find(x)] fails the [CHECK] at that unit. *)
Theorem Find_dangling_parent_aborts (st : analyzer) (x : Var) :
  hits_missing (union_find_forest_ st) x →
  ∃ n, ∀ fuel, (n ≤ fuel)%nat → Find fuel x st = Err CheckFailed.
Proof.
  induction 1 as [x Hx | x p Hx Hne _ [n IH]].
  - exists 1%nat. intros [|fuel] Hle; [lia|]. rewrite Find_S, Hx. reflexivity.
  - exists (S n). intros [|fuel] Hle; [lia|].
    rewrite Find_S, Hx, bool_decide_eq_false_2 by exact Hne.
    rewrite IH by lia. reflexivity.
Qed.

Lemma Find_dangling_parent_aborts_witness :
  let st := set_forest (fun _ => <[Var_obj 0 := Var_obj 1]> (<[Var_obj 1 := Var_obj 2]> ∅))
              (new_analyzer ["a"; "b"; "c"]) in
  ∃ n, ∀ fuel, (n ≤ fuel)%nat → Find fuel (Var_obj 0) st = Err CheckFailed.
Proof.
  intros st. apply (Find_dangling_parent_aborts st (Var_obj 0)).
  eapply hits_missing_next; [reflexivity | discriminate |].
  eapply hits_missing_next; [reflexivity | discriminate |].
  constructor. reflexivity.
Defined.

Lemma never_exits_next (f : gmap Var Var) (x p : Var) :
  f !! x = Some p → x ≠ p → never_exits f x → never_exits f p.
Proof.
  intros Hx Hne Hnever z Hz. apply Hnever. eapply on_path_next; eauto.
Qed.

(** X7: when the parent chain from [x] never reaches a unit that is its
    own parent nor one that is missing (it runs into a cycle), the
    recursion of [Find(x)] does not end: no depth is enough. *)
Theorem Find_cycle_never_returns (st : analyzer) (x : Var) :
  never_exits (union_find_forest_ st) x →
  ∀ fuel, Find fuel x st = OutOfFuel.
Proof.
  intros Hnever fuel. revert x Hnever.
  induction fuel as [|fuel IH]; intros x Hnever; [reflexivity|].
  destruct (Hnever x (on_path_here _ x)) as (p & Hx & Hne).
  rewrite Find_S, Hx, bool_decide_eq_false_2 by exact Hne.
  rewrite (IH p); [reflexivity|]. eapply never_exits_next; eauto.
Qed.

Lemma Find_cycle_never_returns_witness :
  let st := set_forest (fun _ => <[Var_obj 0 := Var_obj 1]> (<[Var_obj 1 := Var_obj 0]> ∅))
              (new_analyzer ["a"; "b"]) in
  Find 1000 (Var_obj 0) st = OutOfFuel ∧ Find 1000 (Var_obj 1) st = OutOfFuel.
Proof.
  intros st.
  assert (Hclosed : ∀ x z, on_path (union_find_forest_ st) x z →
            x = Var_obj 0 ∨ x = Var_obj 1 → z = Var_obj 0 ∨ z = Var_obj 1).
  { induction 1 as [x | x p z Hx Hne _ IH]; intros Hin; [exact Hin|].
    apply IH. destruct Hin as [-> | ->]; simpl in Hx;
      [rewrite lookup_insert_eq in Hx | rewrite lookup_insert_ne, lookup_insert_eq in Hx by discriminate];
      injection Hx as <-; auto. }
  assert (Hcycle : ∀ x, x = Var_obj 0 ∨ x = Var_obj 1 →
                        never_exits (union_find_forest_ st) x).
  { intros x Hx z Hz. destruct (Hclosed _ _ Hz Hx) as [-> | ->].
    - exists (Var_obj 1). split; [reflexivity | discriminate].
    - exists (Var_obj 0). split; [reflexivity | discriminate]. }
  split; apply Find_cycle_never_returns, Hcycle; auto.
Defined.

(** ** [Unite]: what it merges and what it leaves alone *)

(** X8: [Unite(x, y)] merges exactly the two classes: a unit whose root
    was the root of [x] has the root of [y] afterwards, and every other
    unit keeps the root it had. *)
Theorem Unite_merges_two_classes
    (st : analyzer) (x y rx ry : Var) (sx : gset Var) :
  root_of (union_find_forest_ st) x rx →
  root_of (union_find_forest_ st) y ry →
  inv_live_ st !! rx = Some sx →
  ∃ n st',
    (∀ fuel, (n ≤ fuel)%nat → Unite fuel x y st = Ok (ry, st')) ∧
    (∀ z r, root_of (union_find_forest_ st) z r →
            root_of (union_find_forest_ st') z (if decide (r = rx) then ry else r)) ∧
    dom (union_find_forest_ st') = dom (union_find_forest_ st).
Proof.
  intros Hx Hy Hsx.
  destruct (Unite_spec st x y rx ry sx Hx Hy Hsx) as (n & f2 & Hroots & Hdom & Hrun).
  assert (Hrx : f2 !! rx = Some rx).
  { apply (root_of_is_root f2 x), Hroots, Hx. }
  assert (Hry : f2 !! ry = Some ry).
  { apply (root_of_is_root f2 y), Hroots, Hy. }
  eexists n, _. split; [exact Hrun|]. simpl. split.
  - intros z r Hz. apply root_of_link; [exact Hrx | exact Hry |].
    apply Hroots, Hz.
  - rewrite dom_insert_L, Hdom.
    apply subseteq_union_1_L, singleton_subseteq_l.
    rewrite <- Hdom. apply elem_of_dom. eauto.
Qed.

Lemma Unite_merges_two_classes_witness :
  ∃ n st',
    (∀ fuel, (n ≤ fuel)%nat → Unite fuel unit_a unit_r sample_tables = Ok (unit_r, st')) ∧
    (∀ z r, root_of (union_find_forest_ sample_tables) z r →
            root_of (union_find_forest_ st') z (if decide (r = unit_a) then unit_r else r)) ∧
    dom (union_find_forest_ st') = dom (union_find_forest_ sample_tables).
Proof.
  apply (Unite_merges_two_classes sample_tables unit_a unit_r unit_a unit_r {[anchor_p]}).
  - constructor. reflexivity.
  - constructor. reflexivity.
  - reflexivity.
Defined.

(** X9: [Unite] keeps the forest a forest: when every unit had a root
    before, every unit has a root after. *)
Theorem Unite_keeps_forest
    (st : analyzer) (x y rx ry : Var) (sx : gset Var) :
  wf_forest (union_find_forest_ st) →
  root_of (union_find_forest_ st) x rx →
  root_of (union_find_forest_ st) y ry →
  inv_live_ st !! rx = Some sx →
  ∃ n st',
    (∀ fuel, (n ≤ fuel)%nat → Unite fuel x y st = Ok (ry, st')) ∧
    wf_forest (union_find_forest_ st').
Proof. apply Unite_preserves_wf. Qed.

Lemma sample_tables_wf : wf_forest (union_find_forest_ sample_tables).
Proof.
  intros z [p Hp]. simpl in Hp. exists z.
  apply lookup_insert_Some in Hp as [[<- <-] | [_ Hp]]; [constructor; reflexivity|].
  apply lookup_insert_Some in Hp as [[<- <-] | [_ Hp]]; [constructor; reflexivity|].
  apply lookup_insert_Some in Hp as [[<- <-] | [_ Hp]]; [constructor; reflexivity|].
  rewrite lookup_empty in Hp. discriminate.
Qed.

Lemma Unite_keeps_forest_witness :
  ∃ n st',
    (∀ fuel, (n ≤ fuel)%nat → Unite fuel unit_a unit_r sample_tables = Ok (unit_r, st')) ∧
    wf_forest (union_find_forest_ st').
Proof.
  apply (Unite_keeps_forest sample_tables unit_a unit_r unit_a unit_r {[anchor_p]}).
  - apply sample_tables_wf.
  - constructor. reflexivity.
  - constructor. reflexivity.
  - reflexivity.
Defined.

(** X10: [Unite(x, y)] writes one [inv_live_] entry, that of the root of
    [y]: every other entry is as it was, the entry of the absorbed root
    included (it is not erased), and the other tables are untouched. *)
Theorem Unite_writes_one_entry
    (st : analyzer) (x y rx ry : Var) (sx : gset Var) :
  root_of (union_find_forest_ st) x rx →
  root_of (union_find_forest_ st) y ry →
  inv_live_ st !! rx = Some sx →
  ∃ n st',
    (∀ fuel, (n ≤ fuel)%nat → Unite fuel x y st = Ok (ry, st')) ∧
    (∀ z, z ≠ ry → inv_live_ st' !! z = inv_live_ st !! z) ∧
    (rx ≠ ry → inv_live_ st' !! rx = Some sx) ∧
    vset_ st' = vset_ st ∧ vtuple_ st' = vtuple_ st ∧ live_ st' = live_ st ∧
    label_ st' = label_ st ∧ var_store st' = var_store st.
Proof.
  intros Hx Hy Hsx.
  destruct (Unite_spec st x y rx ry sx Hx Hy Hsx) as (n & f2 & _ & _ & Hrun).
  eexists n, _. split; [exact Hrun|]. simpl. split; [|split].
  - intros z Hz. apply lookup_insert_ne. auto.
  - intros Hne. rewrite lookup_insert_ne by auto. exact Hsx.
  - repeat split.
Qed.

Lemma Unite_writes_one_entry_witness :
  ∃ n st',
    (∀ fuel, (n ≤ fuel)%nat → Unite fuel unit_a unit_r sample_tables = Ok (unit_r, st')) ∧
    (∀ z, z ≠ unit_r → inv_live_ st' !! z = inv_live_ sample_tables !! z) ∧
    (unit_a ≠ unit_r → inv_live_ st' !! unit_a = Some {[anchor_p]}) ∧
    vset_ st' = vset_ sample_tables ∧ vtuple_ st' = vtuple_ sample_tables ∧
    live_ st' = live_ sample_tables ∧
    label_ st' = label_ sample_tables ∧ var_store st' = var_store sample_tables.
Proof.
  apply (Unite_writes_one_entry sample_tables unit_a unit_r unit_a unit_r {[anchor_p]}).
  - constructor. reflexivity.
  - constructor. reflexivity.
  - reflexivity.
Defined.

(** X11: after [Unite(a, b)], the surviving root conflicts with a third
    unit [c] exactly when the root of [a] or the root of [b] did
    before: [Intersect(rb, c)] after the merge is the disjunction of
    [Intersect(ra, c)] and [Intersect(rb, c)] before it. *)
Theorem Unite_then_Intersect
    (st : analyzer) (a b ra rb c : Var) (sa sb sc : gset Var) :
  root_of (union_find_forest_ st) a ra →
  root_of (union_find_forest_ st) b rb →
  inv_live_ st !! ra = Some sa →
  inv_live_ st !! rb = Some sb →
  inv_live_ st !! c = Some sc →
  c ≠ rb →
  ∃ n st' r1 r2,
    (∀ fuel, (n ≤ fuel)%nat → Unite fuel a b st = Ok (rb, st')) ∧
    Intersect ra c st = Ok (r1, st) ∧
    Intersect rb c st = Ok (r2, st) ∧
    Intersect rb c st' = Ok (r1 || r2, st').
Proof.
  intros Ha Hb Hsa Hsb Hsc Hne.
  destruct (Unite_spec st a b ra rb sa Ha Hb Hsa) as (n & f2 & _ & _ & Hrun).
  eexists n, _, _, _. split; [exact Hrun|].
  split; [apply (Intersect_eq st ra c sa sc Hsa Hsc)|].
  split; [apply (Intersect_eq st rb c sb sc Hsb Hsc)|].
  rewrite (Intersect_eq _ rb c (sb ∪ sa) sc).
  - do 2 f_equal. apply eq_true_iff_eq.
    rewrite orb_true_iff, !Intersect_true_iff. split.
    + intros (v & Hv & Hvc). apply elem_of_union in Hv as [Hv|Hv]; [right|left]; eauto.
    + intros [(v & Hv & Hvc)|(v & Hv & Hvc)]; exists v;
        (split; [apply elem_of_union; auto | exact Hvc]).
  - simpl. rewrite lookup_insert_eq, Hsb. reflexivity.
  - simpl. rewrite lookup_insert_ne by auto. exact Hsc.
Qed.

Lemma Unite_then_Intersect_witness :
  ∃ n st' r1 r2,
    (∀ fuel, (n ≤ fuel)%nat → Unite fuel unit_a unit_r sample_tables = Ok (unit_r, st')) ∧
    Intersect unit_a unit_b sample_tables = Ok (r1, sample_tables) ∧
    Intersect unit_r unit_b sample_tables = Ok (r2, sample_tables) ∧
    Intersect unit_r unit_b st' = Ok (r1 || r2, st').
Proof.
  apply (Unite_then_Intersect sample_tables unit_a unit_r unit_a unit_r unit_b
           {[anchor_p]} {[anchor_q]} {[anchor_q]}).
  - constructor. reflexivity.
  - constructor. reflexivity.
  - reflexivity.
  - reflexivity.
  - reflexivity.
  - discriminate.
Defined.

(** X12: [Unite(x, y)] on two different classes throws
    [std::out_of_range] when the root of [x] has no [inv_live_] entry;
    when only the root of [y] has none, [Unite] returns and that root
    gets the entry of the root of [x]. *)
Theorem Unite_missing_entries (st : analyzer) (x y rx ry : Var) :
  root_of (union_find_forest_ st) x rx →
  root_of (union_find_forest_ st) y ry →
  rx ≠ ry →
  (inv_live_ st !! rx = None →
     ∃ n, ∀ fuel, (n ≤ fuel)%nat → Unite fuel x y st = Err OutOfRange) ∧
  (∀ sx, inv_live_ st !! rx = Some sx → inv_live_ st !! ry = None →
     ∃ n st', (∀ fuel, (n ≤ fuel)%nat → Unite fuel x y st = Ok (ry, st')) ∧
              inv_live_ st' !! ry = Some sx).
Proof.
  intros Hx Hy Hne. split.
  - intros Hnone.
    destruct (Find_root st x rx Hx) as (n1 & f1 & Hrun1 & Hroots1 & _ & _).
    assert (Hy1 : root_of (union_find_forest_ (set_forest (fun _ => f1) st)) y ry).
    { simpl. apply Hroots1, Hy. }
    destruct (Find_root _ y ry Hy1) as (n2 & f2 & Hrun2 & _).
    exists (n1 `max` n2)%nat. intros fuel Hle.
    unfold Unite, bind at 1. rewrite Hrun1 by lia.
    unfold bind at 1. rewrite Hrun2 by lia. mstep.
    rewrite lookup_insert_ne by auto. rewrite Hnone. reflexivity.
  - intros sx Hsx Hnone.
    destruct (Unite_spec st x y rx ry sx Hx Hy Hsx) as (n & f2 & _ & _ & Hrun).
    eexists n, _. split; [exact Hrun|]. simpl.
    rewrite lookup_insert_eq, Hnone. simpl. f_equal.
    apply set_eq. intros z. rewrite elem_of_union, elem_of_empty. tauto.
Qed.

Lemma Unite_missing_entries_witness :
  let st := set_inv_live (delete unit_a) sample_tables in
  (∃ n, ∀ fuel, (n ≤ fuel)%nat → Unite fuel unit_a unit_r st = Err OutOfRange) ∧
  (∃ n st', (∀ fuel, (n ≤ fuel)%nat → Unite fuel unit_r unit_a st = Ok (unit_a, st')) ∧
            inv_live_ st' !! unit_a = Some {[anchor_q]}).
Proof.
  intros st. split.
  - apply (proj1 (Unite_missing_entries st unit_a unit_r unit_a unit_r
                    ltac:(constructor; reflexivity) ltac:(constructor; reflexivity)
                    ltac:(discriminate))).
    reflexivity.
  - apply (proj2 (Unite_missing_entries st unit_r unit_a unit_r unit_a
                    ltac:(constructor; reflexivity) ltac:(constructor; reflexivity)
                    ltac:(discriminate)) {[anchor_q]}); reflexivity.
Defined.

(** ** [Merge] over an array *)

Lemma Merge_Ok_inv (st st' : analyzer) (v1 v2 res : Var) :
  Merge v1 v2 st = Ok (res, st') →
  ∃ s1 s2,
    vset_ st !! v1 = Some s1 ∧ vset_ st !! v2 = Some s2 ∧
    res = fresh_var st ∧
    st' = set_vset (insert (fresh_var st) (s1 ∪ s2)) (created "ms" st).
Proof.
  intros Hrun.
  destruct (vset_ st !! v1) as [s1|] eqn:H1.
  - destruct (vset_ st !! v2) as [s2|] eqn:H2.
    + rewrite (Merge_eq st v1 v2 s1 s2 H1 H2) in Hrun. injection Hrun as <- <-.
      exists s1, s2. repeat split.
    + unfold Merge in Hrun. mstep. rewrite H1 in Hrun. simpl in Hrun.
      rewrite H2 in Hrun. discriminate.
  - unfold Merge in Hrun. mstep. rewrite H1 in Hrun. discriminate.
Qed.

Lemma Merge_missing (st : analyzer) (v1 v2 : Var) :
  vset_ st !! v1 = None ∨ vset_ st !! v2 = None →
  Merge v1 v2 st = Err OutOfRange.
Proof.
  intros Hnone. unfold Merge. mstep.
  destruct (vset_ st !! v1) as [s1|] eqn:H1; simpl; [|reflexivity].
  destruct Hnone as [Hnone|Hnone]; [discriminate|].
  rewrite Hnone. reflexivity.
Qed.

(** The names [k] successive temporaries of [Merge] get. *)
Lemma ms_names_shift (c : Z) (k : nat) :
  (fullname "ms" c :: map (fun i => fullname "ms" (c + 1 + Z.of_nat i)) (seq 0 k))%list =
  map (fun i => fullname "ms" (c + Z.of_nat i)) (seq 0 (S k)).
Proof.
  simpl. rewrite Z.add_0_r. f_equal.
  rewrite <- seq_shift, map_map. apply map_ext. intros i. f_equal. lia.
Qed.

Lemma next_label_ms_created (st : analyzer) (s : gset Var) :
  0 ≤ next_label st "ms" < INT_MAX →
  next_label (set_vset (insert (fresh_var st) s) (created "ms" st)) "ms"
  = next_label st "ms" + 1.
Proof.
  intros Hc. unfold next_label at 1. simpl. rewrite lookup_insert_eq. simpl.
  apply wrap_int_in_range. unfold INT_MIN. lia.
Qed.

Lemma Merge_loop_store (vars : list Var) :
  ∀ (st st' : analyzer) (r res : Var),
    0 ≤ next_label st "ms" →
    next_label st "ms" + Z.of_nat (length vars) ≤ INT_MAX →
    Merge_loop r vars st = Ok (res, st') →
    var_store st' =
    (var_store st ++
       map (fun i => fullname "ms" (next_label st "ms" + Z.of_nat i))
           (seq 0 (length vars)))%list.
Proof.
  induction vars as [|v vars IH]; intros st st' r res Hlow Hup Hrun.
  - injection Hrun as _ <-. simpl. rewrite app_nil_r. reflexivity.
  - simpl in Hrun. unfold bind in Hrun.
    destruct (Merge r v st) as [[r1 st1]| |] eqn:Hm; try discriminate.
    apply Merge_Ok_inv in Hm as (s1 & s2 & _ & _ & -> & ->).
    simpl length in Hup.
    assert (Hnl : next_label (set_vset (insert (fresh_var st) (s1 ∪ s2)) (created "ms" st)) "ms"
                  = next_label st "ms" + 1) by (apply next_label_ms_created; lia).
    rewrite (IH _ _ _ _ ltac:(rewrite Hnl; lia) ltac:(rewrite Hnl; lia) Hrun).
    simpl var_store at 1. rewrite <- app_assoc. f_equal.
    rewrite Hnl. apply ms_names_shift.
Qed.

(** X13: on variables that all have [vset_] entries, and while the
    counters of the prefixes [n] and [ms] stay within the range of an
    [int] (no increment goes past [INT_MAX]), [Merge(Array)] returns a
    variable whose entry is the union of theirs and overwrites no older
    entry.  It creates one null variable [n_k] for the empty array,
    nothing for one variable (which is returned as it is), and for
    [n ≥ 2] variables the [n - 1] temporaries [ms_k], [ms_(k+1)], ... *)
Theorem Merge_array_temporaries (st : analyzer) (vars : list Var) :
  Forall (has_vset st) vars →
  0 ≤ next_label st "n" < INT_MAX →
  0 ≤ next_label st "ms" →
  next_label st "ms" + Z.of_nat (length vars) ≤ INT_MAX →
  ∃ res st',
    Merge_array vars st = Ok (res, st') ∧
    vset_ st' !! res = Some (union_of st vars) ∧
    vset_frame st st' ∧
    var_store st' =
      (var_store st ++
         match vars with
         | [] => [fullname "n" (next_label st "n")]
         | _ :: rest =>
             map (fun i => fullname "ms" (next_label st "ms" + Z.of_nat i))
                 (seq 0 (length rest))
         end)%list ∧
    (∀ v, vars = [v] → res = v ∧ st' = st).
Proof.
  intros Hall Hn Hlow Hup.
  destruct (Merge_array_spec vars st Hall) as (res & st' & Hrun & Hres & _ & Hframe).
  exists res, st'. split; [exact Hrun|]. split; [exact Hres|]. split; [exact Hframe|].
  destruct vars as [|v0 [|v1 rest]].
  - rewrite (CreateNull_eq "n" st : Merge_array [] st = _) in Hrun.
    injection Hrun as <- <-. split; [reflexivity | discriminate].
  - inversion Hall as [|? ? [_ H0] _]; subst.
    simpl in Hrun. mstep. rewrite bool_decide_eq_true_2 in Hrun by exact H0.
    injection Hrun as <- <-. split.
    + simpl. rewrite app_nil_r. reflexivity.
    + intros v [= <-]. split; reflexivity.
  - split; [|discriminate].
    simpl in Hrun. unfold bind in Hrun.
    destruct (Merge v0 v1 st) as [[r1 st1]| |] eqn:Hm; try discriminate.
    apply Merge_Ok_inv in Hm as (s1 & s2 & _ & _ & -> & ->).
    simpl length in Hup.
    assert (Hnl : next_label (set_vset (insert (fresh_var st) (s1 ∪ s2)) (created "ms" st)) "ms"
                  = next_label st "ms" + 1) by (apply next_label_ms_created; lia).
    rewrite (Merge_loop_store rest _ _ _ _ ltac:(rewrite Hnl; lia) ltac:(rewrite Hnl; lia) Hrun).
    simpl var_store at 1. rewrite <- app_assoc. f_equal.
    rewrite Hnl. apply (ms_names_shift (next_label st "ms") (length rest)).
Qed.

Lemma Merge_array_temporaries_witness :
  let st := set_vset (insert (Var_obj 0) {[Var_obj 0]})
              (set_vset (insert (Var_obj 1) {[Var_obj 1]})
                 (set_vset (insert (Var_obj 2) ∅) (new_analyzer ["t_0"; "t_1"; "n_0"]))) in
  ∃ res st',
    Merge_array [Var_obj 0; Var_obj 1; Var_obj 2] st = Ok (res, st') ∧
    vset_ st' !! res = Some (union_of st [Var_obj 0; Var_obj 1; Var_obj 2]) ∧
    vset_frame st st' ∧
    var_store st' =
      (var_store st ++
         map (fun i => fullname "ms" (next_label st "ms" + Z.of_nat i)) (seq 0 2))%list ∧
    (∀ v, [Var_obj 0; Var_obj 1; Var_obj 2] = [v] → res = v ∧ st' = st).
Proof.
  intros st. apply (Merge_array_temporaries st [Var_obj 0; Var_obj 1; Var_obj 2]).
  - repeat constructor; simpl; try lia; eexists; reflexivity.
  - unfold INT_MAX. split; [reflexivity|]. reflexivity.
  - discriminate.
  - unfold INT_MAX. discriminate.
Defined.

Lemma Merge_loop_missing (vars : list Var) :
  ∀ (st : analyzer) (r : Var),
    is_Some (vset_ st !! r) →
    Forall (allocated st) vars →
    Exists (fun v => vset_ st !! v = None) vars →
    Merge_loop r vars st = Err OutOfRange.
Proof.
  induction vars as [|v vars IH]; intros st r [sr Hr] Hall Hex.
  - inversion Hex.
  - inversion Hall as [|? ? Hav Hall']; subst. simpl. unfold bind.
    destruct (vset_ st !! v) as [sv|] eqn:Hv.
    + rewrite (Merge_eq st r v sr sv Hr Hv).
      set (st1 := set_vset _ _).
      assert (Hf : vset_frame st st1) by apply vset_frame_created.
      apply IH.
      * exists (sr ∪ sv). apply lookup_insert_eq.
      * eapply Forall_impl; [exact Hall'|]. intros z. apply allocated_mono, Hf.
      * inversion Hex as [? ? Hnone|? ? Hex']; subst; [congruence|].
        apply Exists_exists in Hex' as (z & Hz & Hnone).
        apply Exists_exists. exists z. split; [exact Hz|].
        destruct Hf as [_ Hf]. rewrite Hf; [exact Hnone|].
        apply (proj1 (Forall_forall _ _) Hall' z Hz).
    + rewrite Merge_missing by auto. reflexivity.
Qed.

(** X14: when one of the variables has no [vset_] entry,
    [Merge(Array)] aborts: the [CHECK] fails for an array of one, and
    [at] throws [std::out_of_range] for an array of two or more. *)
Theorem Merge_array_missing_entry (st : analyzer) (vars : list Var) :
  Forall (allocated st) vars →
  Exists (fun v => vset_ st !! v = None) vars →
  Merge_array vars st =
  Err (if decide (length vars = 1%nat) then CheckFailed else OutOfRange).
Proof.
  intros Hall Hex. destruct vars as [|v0 [|v1 rest]].
  - inversion Hex.
  - inversion Hex as [? ? Hnone|? ? Hex']; subst; [|inversion Hex'].
    simpl. mstep. rewrite Hnone.
    rewrite bool_decide_eq_false_2; [reflexivity|]. intros [? ?]; discriminate.
  - simpl. unfold bind.
    inversion Hall as [|? ? Ha0 Hall1]; subst.
    inversion Hall1 as [|? ? Ha1 Hall2]; subst.
    destruct (vset_ st !! v0) as [s0|] eqn:H0;
      [|rewrite Merge_missing by auto; reflexivity].
    destruct (vset_ st !! v1) as [s1|] eqn:H1;
      [|rewrite Merge_missing by auto; reflexivity].
    rewrite (Merge_eq st v0 v1 s0 s1 H0 H1).
    set (st1 := set_vset _ _).
    assert (Hf : vset_frame st st1) by apply vset_frame_created.
    apply Merge_loop_missing.
    + exists (s0 ∪ s1). apply lookup_insert_eq.
    + eapply Forall_impl; [exact Hall2|]. intros z. apply allocated_mono, Hf.
    + inversion Hex as [? ? Hnone|? ? Hex1]; subst; [congruence|].
      inversion Hex1 as [? ? Hnone|? ? Hex2]; subst; [congruence|].
      apply Exists_exists in Hex2 as (z & Hz & Hnone).
      apply Exists_exists. exists z. split; [exact Hz|].
      destruct Hf as [_ Hf]. rewrite Hf; [exact Hnone|].
      apply (proj1 (Forall_forall _ _) Hall2 z Hz).
Qed.

Lemma Merge_array_missing_entry_witness :
  let st := set_vset (insert (Var_obj 0) {[Var_obj 0]})
              (set_vset (insert (Var_obj 1) {[Var_obj 1]})
                 (new_analyzer ["t_0"; "t_1"; "x"])) in
  Merge_array [Var_obj 2] st = Err CheckFailed ∧
  Merge_array [Var_obj 0; Var_obj 1; Var_obj 2] st = Err OutOfRange.
Proof.
  intros st. split.
  - apply (Merge_array_missing_entry st [Var_obj 2]).
    + repeat constructor; simpl; lia.
    + constructor. reflexivity.
  - apply (Merge_array_missing_entry st [Var_obj 0; Var_obj 1; Var_obj 2]).
    + repeat constructor; simpl; lia.
    + do 2 apply Exists_cons_tl. constructor. reflexivity.
Defined.

(** ** Accessors after creation *)

Lemma GetTensorVar_eq (st : analyzer) (x : Var) (s : gset Var) :
  vset_ st !! x = Some s →
  GetTensorVar x st =
  Ok (if bool_decide (size s ≠ 1%nat) then Var_null else hd Var_null (elements s), st).
Proof.
  intros Hx. unfold GetTensorVar. mstep. rewrite Hx.
  destruct (bool_decide (size s ≠ 1%nat)); reflexivity.
Qed.

(** X15: [GetTensorVar] gives back the variable [CreateTensor]
    returned, and the null variable on the variable [CreateNull]
    returned. *)
Theorem GetTensorVar_after_create (name : string) (st : analyzer) :
  (∃ v st', CreateTensor name st = Ok (v, st') ∧
            defined v = true ∧ GetTensorVar v st' = Ok (v, st')) ∧
  (∃ v st', CreateNull name st = Ok (v, st') ∧
            defined v = true ∧ GetTensorVar v st' = Ok (Var_null, st')).
Proof.
  split.
  - eexists _, _. split; [apply CreateTensor_eq|]. split; [reflexivity|].
    rewrite (GetTensorVar_eq _ _ {[fresh_var st]}) by apply lookup_insert_eq.
    rewrite size_singleton, bool_decide_eq_false_2 by auto.
    rewrite elements_singleton. reflexivity.
  - eexists _, _. split; [apply CreateNull_eq|]. split; [reflexivity|].
    rewrite (GetTensorVar_eq _ _ ∅) by apply lookup_insert_eq.
    rewrite size_empty, bool_decide_eq_true_2 by auto. reflexivity.
Qed.

(** X16: a unit whose [inv_live_] entry is empty intersects no unit,
    itself included; a unit whose entry is not empty intersects
    itself. *)
Theorem Intersect_empty_and_self (st : analyzer) (x : Var) (sx : gset Var) :
  inv_live_ st !! x = Some sx →
  (sx = ∅ → ∀ y, is_Some (inv_live_ st !! y) →
              Intersect x y st = Ok (false, st) ∧ Intersect y x st = Ok (false, st)) ∧
  (sx ≠ ∅ → Intersect x x st = Ok (true, st)).
Proof.
  intros Hx. split.
  - intros -> y [sy Hy].
    rewrite (Intersect_eq st x y ∅ sy Hx Hy), (Intersect_eq st y x sy ∅ Hy Hx).
    rewrite elements_empty. simpl. split; [reflexivity|].
    do 2 f_equal. apply not_true_is_false. rewrite Intersect_true_iff.
    intros (v & _ & Hv). apply elem_of_empty in Hv. exact Hv.
  - intros Hne. rewrite (Intersect_eq st x x sx sx Hx Hx). do 2 f_equal.
    apply Intersect_true_iff.
    apply set_choose_L in Hne as [v Hv]. exists v. split; exact Hv.
Qed.

Lemma Intersect_empty_and_self_witness :
  let st := set_inv_live (insert unit_a ∅) sample_tables in
  (∀ y, is_Some (inv_live_ st !! y) →
        Intersect unit_a y st = Ok (false, st) ∧ Intersect y unit_a st = Ok (false, st)) ∧
  Intersect unit_r unit_r st = Ok (true, st).
Proof.
  intros st. split.
  - apply (proj1 (Intersect_empty_and_self st unit_a ∅ eq_refl)). reflexivity.
  - apply (proj2 (Intersect_empty_and_self st unit_r {[anchor_q]} eq_refl)).
    intros Heq. apply (f_equal size) in Heq. revert Heq.
    rewrite size_singleton, size_empty. discriminate.
Defined.

(** ** [MergeLive] on missing entries *)

Lemma Remove_cases (st : analyzer) (v1 v2 : Var) :
  (∃ s1 s2, Remove v1 v2 st =
            Ok (fresh_var st, set_vset (insert (fresh_var st) (s1 ∖ s2)) (created "rs" st))) ∨
  Remove v1 v2 st = Err OutOfRange.
Proof.
  destruct (vset_ st !! v1) as [s1|] eqn:H1.
  - destruct (vset_ st !! v2) as [s2|] eqn:H2.
    + left. exists s1, s2. apply Remove_eq; assumption.
    + right. unfold Remove. mstep. rewrite H1. simpl. rewrite H2. reflexivity.
  - right. unfold Remove. mstep. rewrite H1. reflexivity.
Qed.

(** X17: [MergeLive] throws [std::out_of_range] when [live_] has no
    entry for [next_var_], when [cur] has no [vset_] entry, and when
    [def] is defined and has no [vset_] entry. *)
Theorem MergeLive_missing_entry (st : analyzer) (next_var_ cur def : Var) :
  (live_ st !! next_var_ = None →
     BackwardAnalyzer.MergeLive next_var_ cur def st = Err OutOfRange) ∧
  (allocated st cur → vset_ st !! cur = None →
     BackwardAnalyzer.MergeLive next_var_ cur def st = Err OutOfRange) ∧
  (defined def = true → allocated st def → vset_ st !! def = None →
     BackwardAnalyzer.MergeLive next_var_ cur def st = Err OutOfRange).
Proof.
  assert (Hstep : ∀ l, live_ st !! next_var_ = Some l →
    BackwardAnalyzer.MergeLive next_var_ cur def st =
    (let! remain := (if defined def then Remove (fresh_var st) def
                     else ret (fresh_var st)) in
     Merge remain cur)
      (set_vset (insert (fresh_var st) l) (created "ml" st))).
  { intros l Hl. unfold BackwardAnalyzer.MergeLive. unfold bind at 1.
    rewrite CreateTensorVar_eq. mstep. rewrite Hl. reflexivity. }
  assert (Hkeep : ∀ l z, allocated st z → vset_ st !! z = None →
    vset_ (set_vset (insert (fresh_var st) l) (created "ml" st)) !! z = None).
  { intros l z Hz Hnone.
    destruct (vset_frame_created "ml" st l) as [_ Hf]. rewrite Hf by exact Hz.
    exact Hnone. }
  split; [|split].
  - intros Hnone. unfold BackwardAnalyzer.MergeLive. unfold bind at 1.
    rewrite CreateTensorVar_eq. mstep. rewrite Hnone. reflexivity.
  - intros Hac Hc. destruct (live_ st !! next_var_) as [l|] eqn:Hl.
    + rewrite (Hstep l eq_refl). set (st1 := set_vset _ _).
      assert (Hc1 : vset_ st1 !! cur = None) by (apply Hkeep; assumption).
      unfold bind. destruct (defined def).
      * destruct (Remove_cases st1 (fresh_var st) def) as [(s1 & s2 & Hr)|Hr];
          rewrite Hr; [|reflexivity].
        apply Merge_missing. right.
        destruct (vset_frame_created "rs" st1 (s1 ∖ s2)) as [_ Hf].
        rewrite Hf; [exact Hc1|].
        eapply allocated_mono; [|exact Hac].
        apply (vset_frame_created "ml" st l).
      * unfold ret. apply Merge_missing. right. exact Hc1.
    + unfold BackwardAnalyzer.MergeLive. unfold bind at 1.
      rewrite CreateTensorVar_eq. mstep. rewrite Hl. reflexivity.
  - intros Hdef Had Hd. destruct (live_ st !! next_var_) as [l|] eqn:Hl.
    + rewrite (Hstep l eq_refl). rewrite Hdef. set (st1 := set_vset _ _).
      assert (Hd1 : vset_ st1 !! def = None) by (apply Hkeep; assumption).
      unfold bind at 1. unfold Remove. mstep.
      replace (vset_ st1 !! fresh_var st) with (Some l) by (symmetry; apply lookup_insert_eq).
      simpl. rewrite Hd1. reflexivity.
    + unfold BackwardAnalyzer.MergeLive. unfold bind at 1.
      rewrite CreateTensorVar_eq. mstep. rewrite Hl. reflexivity.
Qed.

Lemma MergeLive_missing_entry_witness :
  let st := set_vset (insert (Var_obj 1) {[Var_obj 3]}) (new_analyzer ["next"; "cur"; "def"; "t_0"]) in
  BackwardAnalyzer.MergeLive (Var_obj 0) (Var_obj 1) Var_null st = Err OutOfRange ∧
  BackwardAnalyzer.MergeLive (Var_obj 0) (Var_obj 2) Var_null st = Err OutOfRange ∧
  BackwardAnalyzer.MergeLive (Var_obj 0) (Var_obj 1) (Var_obj 2) st = Err OutOfRange.
Proof.
  intros st. split; [|split].
  - apply (proj1 (MergeLive_missing_entry st (Var_obj 0) (Var_obj 1) Var_null)).
    reflexivity.
  - apply (proj1 (proj2 (MergeLive_missing_entry st (Var_obj 0) (Var_obj 2) Var_null)));
      [simpl; lia | reflexivity].
  - apply (proj2 (proj2 (MergeLive_missing_entry st (Var_obj 0) (Var_obj 1) (Var_obj 2))));
      [reflexivity | simpl; lia | reflexivity].
Defined.

(** ** [VarCreator]: which types it accepts and what it mints *)

Lemma VisitFields_unsupported (fs : list IRType) :
  Forall (fun ty => structural ty = false →
                    ∀ st, VarCreator.VisitType ty st = Err Fatal) fs →
  forallb structural fs = false →
  ∀ st, VarCreator.VisitFields fs st = Err Fatal.
Proof.
  induction 1 as [|ty fs Hty _ IH]; intros Hstr st; [discriminate|].
  simpl in Hstr. simpl. unfold bind at 1.
  destruct (structural ty) eqn:Hs.
  - destruct (VisitType_ok ty Hs st) as (v & st1 & Hrun & _).
    rewrite Hrun. unfold bind at 1. rewrite (IH Hstr st1). reflexivity.
  - rewrite (Hty eq_refl st). reflexivity.
Qed.

Lemma VisitType_unsupported (ty : IRType) :
  structural ty = false → ∀ st, VarCreator.VisitType ty st = Err Fatal.
Proof.
  induction ty as [|fields IH|] using IRType_nested_ind; intros Hstr st.
  - discriminate.
  - rewrite VisitType_tuple. unfold bind at 1.
    rewrite (VisitFields_unsupported fields IH Hstr st). reflexivity.
  - reflexivity.
Qed.

(** X18: [VarCreator::Run] returns exactly on the types made of
    tensors and tuples; on a type with any other kind of node,
    however deep, it ends in the functor's fatal default. *)
Theorem Run_supported_types (ty : IRType) (st : analyzer) :
  (structural ty = true → ∃ v st', VarCreator.Run ty st = Ok (v, st')) ∧
  (structural ty = false → VarCreator.Run ty st = Err Fatal).
Proof.
  split.
  - intros Hs. destruct (VisitType_ok ty Hs st) as (v & st' & Hrun & _). eauto.
  - intros Hs. apply VisitType_unsupported, Hs.
Qed.

Lemma Run_supported_types_witness :
  (∃ v st', VarCreator.Run (TupleType [TensorType; TupleType []]) (new_analyzer []) = Ok (v, st')) ∧
  VarCreator.Run (TupleType [TensorType; TupleType [OtherType]]) (new_analyzer []) = Err Fatal.
Proof.
  split.
  - apply (proj1 (Run_supported_types (TupleType [TensorType; TupleType []]) (new_analyzer []))).
    reflexivity.
  - apply (proj2 (Run_supported_types (TupleType [TensorType; TupleType [OtherType]])
                    (new_analyzer []))).
    reflexivity.
Defined.

(** X19: for a tuple type of one field, [Run] creates no variable of
    its own: it returns the variable of the field and sets [vtuple_] of
    that variable to the list of itself, replacing what the visit of
    the field had recorded there. *)
Theorem Run_one_field_tuple (ty : IRType) (st : analyzer) :
  structural ty = true →
  ∃ v st1,
    VarCreator.Run ty st = Ok (v, st1) ∧
    VarCreator.Run (TupleType [ty]) st = Ok (v, set_vtuple (insert v [v]) st1).
Proof.
  intros Hs. destruct (VisitType_ok ty Hs st) as (v & st1 & Hrun & [_ Hv] & _).
  exists v, st1. split; [exact Hrun|].
  unfold VarCreator.Run. rewrite VisitType_tuple.
  unfold bind at 1. simpl VarCreator.VisitFields. unfold bind at 1.
  rewrite Hrun. mstep. mstep. rewrite bool_decide_eq_true_2 by exact Hv. reflexivity.
Qed.

Lemma Run_one_field_tuple_witness :
  ∃ v st1,
    VarCreator.Run (TupleType [TensorType; TensorType]) (new_analyzer []) = Ok (v, st1) ∧
    VarCreator.Run (TupleType [TupleType [TensorType; TensorType]]) (new_analyzer []) =
      Ok (v, set_vtuple (insert v [v]) st1).
Proof.
  apply (Run_one_field_tuple (TupleType [TensorType; TensorType]) (new_analyzer [])).
  reflexivity.
Defined.

Lemma fresh_unit_frame (st0 st1 st2 st3 : analyzer) (u : Var) :
  vset_frame st0 st1 → fresh_unit st1 st2 u → vset_frame st2 st3 →
  fresh_unit st0 st3 u.
Proof.
  intros [Hlen01 _] (Hnew & Hal & Hself) [Hlen23 Hf23]. split; [|split].
  - intros Ha. apply Hnew. eapply allocated_mono; eauto.
  - eapply allocated_mono; eauto.
  - rewrite Hf23 by exact Hal. exact Hself.
Qed.

Lemma VisitFields_units (fs : list IRType) :
  Forall (fun ty => structural ty = true →
            ∀ st, ∃ v st' s,
              VarCreator.VisitType ty st = Ok (v, st') ∧
              vset_ st' !! v = Some s ∧ size s = leaves ty ∧
              (∀ u, u ∈ s → fresh_unit st st' u) ∧
              allocated st' v ∧ vset_frame st st') fs →
  forallb structural fs = true →
  ∀ st, ∃ vs st',
    VarCreator.VisitFields fs st = Ok (vs, st') ∧
    Forall (has_vset st') vs ∧
    vset_frame st st' ∧
    size (union_of st' vs) = list_sum (map leaves fs) ∧
    (∀ u, u ∈ union_of st' vs → fresh_unit st st' u).
Proof.
  induction 1 as [|ty fs Hty _ IH]; intros Hstr st.
  - exists [], st. split; [reflexivity|]. split; [constructor|].
    split; [apply vset_frame_refl|]. split; [apply size_empty|].
    intros u Hu. unfold union_of in Hu. simpl in Hu.
    apply elem_of_empty in Hu. contradiction.
  - simpl in Hstr. apply andb_prop in Hstr as [Hs Hss].
    destruct (Hty Hs st) as (v & st1 & s & Hrun1 & Hv & Hsize & Hfresh & Hav & Hf1).
    destruct (IH Hss st1) as (vs & st2 & Hrun2 & Hall & Hf2 & Hsizes & Hfreshs).
    assert (Hv2 : vset_ st2 !! v = Some s).
    { destruct Hf2 as [_ Hf2]. rewrite Hf2 by exact Hav. exact Hv. }
    exists (v :: vs), st2. split; [|split; [|split; [|split]]].
    + simpl. unfold bind at 1. rewrite Hrun1. unfold bind at 1. rewrite Hrun2.
      reflexivity.
    + constructor; [|exact Hall]. split; [|eauto].
      eapply allocated_mono; [apply Hf2 | exact Hav].
    + eapply vset_frame_trans; eauto.
    + rewrite (union_of_cons st2 v vs s Hv2). rewrite size_union.
      * simpl. rewrite Hsize, Hsizes. reflexivity.
      * intros u Hu1 Hu2. destruct (Hfresh u Hu1) as (_ & Hal & _).
        destruct (Hfreshs u Hu2) as (Hnew & _). exact (Hnew Hal).
    + intros u Hu. rewrite (union_of_cons st2 v vs s Hv2) in Hu.
      apply elem_of_union in Hu as [Hu|Hu].
      * eapply fresh_unit_frame; [apply vset_frame_refl | apply Hfresh, Hu | exact Hf2].
      * eapply fresh_unit_frame; [exact Hf1 | apply Hfreshs, Hu | apply vset_frame_refl].
Qed.

Lemma VisitType_units (ty : IRType) :
  structural ty = true →
  ∀ st, ∃ v st' s,
    VarCreator.VisitType ty st = Ok (v, st') ∧
    vset_ st' !! v = Some s ∧ size s = leaves ty ∧
    (∀ u, u ∈ s → fresh_unit st st' u) ∧
    allocated st' v ∧ vset_frame st st'.
Proof.
  induction ty as [|fields IH|] using IRType_nested_ind; intros Hstr st.
  - eexists _, _, _. split; [apply (CreateTensor_eq "t" st)|].
    split; [apply lookup_insert_eq|]. split; [apply size_singleton|].
    split; [|split; [apply allocated_fresh_created | apply vset_frame_created]].
    intros u Hu. apply elem_of_singleton in Hu as ->. split; [|split].
    + simpl. lia.
    + apply allocated_fresh_created.
    + apply lookup_insert_eq.
  - destruct (VisitFields_units fields IH Hstr st)
      as (fvs & st1 & Hrun & Hall & Hf1 & Hsize & Hfresh).
    destruct (VisitTuple_spec fields st st1 fvs Hrun Hall)
      as (tvar & st' & Hrun' & _ & Hset & _ & [Hat _] & Hf2).
    assert (Heq : union_of st' fvs = union_of st1 fvs)
      by (apply union_of_frame; assumption).
    exists tvar, st', (union_of st1 fvs).
    split; [exact Hrun'|]. split; [rewrite Hset, Heq; reflexivity|].
    split; [exact Hsize|]. split; [|split; [exact Hat|]].
    + intros u Hu.
      eapply fresh_unit_frame; [apply vset_frame_refl | apply Hfresh, Hu | exact Hf2].
    + eapply vset_frame_trans; eauto.
  - discriminate.
Qed.

(** X20: on a type made of tensors and tuples, the unit-set of the
    variable [Run] returns has one unit per tensor leaf of the type;
    each unit is a new object whose own unit-set is the singleton of
    itself; and [GetTensorVar] of the variable is defined exactly when
    the type has one tensor leaf. *)
Theorem Run_mints_one_unit_per_leaf (ty : IRType) (st : analyzer) :
  structural ty = true →
  ∃ v st' s,
    VarCreator.Run ty st = Ok (v, st') ∧
    vset_ st' !! v = Some s ∧
    size s = leaves ty ∧
    (∀ u, u ∈ s → fresh_unit st st' u) ∧
    (leaves ty = 1%nat → ∃ u, s = {[u]} ∧ GetTensorVar v st' = Ok (u, st')) ∧
    (leaves ty ≠ 1%nat → GetTensorVar v st' = Ok (Var_null, st')).
Proof.
  intros Hs.
  destruct (VisitType_units ty Hs st) as (v & st' & s & Hrun & Hv & Hsize & Hfresh & _).
  exists v, st', s. split; [exact Hrun|]. split; [exact Hv|]. split; [exact Hsize|].
  split; [exact Hfresh|]. rewrite (GetTensorVar_eq st' v s Hv), Hsize. split.
  - intros Hone. rewrite Hone in Hsize.
    apply size_1_elem_of in Hsize as [u Hu]. apply leibniz_equiv in Hu.
    exists u. split; [exact Hu|].
    rewrite bool_decide_eq_false_2 by (rewrite Hone; auto).
    rewrite Hu, elements_singleton. reflexivity.
  - intros Hne. rewrite bool_decide_eq_true_2 by exact Hne. reflexivity.
Qed.

Lemma Run_mints_one_unit_per_leaf_witness :
  let ty := TupleType [TensorType; TupleType [TensorType; TensorType]; TupleType []] in
  let st := new_analyzer ["x"] in
  ∃ v st' s,
    VarCreator.Run ty st = Ok (v, st') ∧
    vset_ st' !! v = Some s ∧
    size s = 3%nat ∧
    (∀ u, u ∈ s → fresh_unit st st' u) ∧
    (leaves ty = 1%nat → ∃ u, s = {[u]} ∧ GetTensorVar v st' = Ok (u, st')) ∧
    (leaves ty ≠ 1%nat → GetTensorVar v st' = Ok (Var_null, st')).
Proof.
  intros ty st. apply (Run_mints_one_unit_per_leaf ty st). reflexivity.
Defined.

(** ** The counters of [CreateTensorVar] *)

Lemma occurrences_cons (p q : string) (names : list string) :
  occurrences p (q :: names) =
  ((if decide (q = p) then 1 else 0) + occurrences p names)%nat.
Proof.
  unfold occurrences. rewrite filter_cons.
  destruct (decide (q = p)); reflexivity.
Qed.

Lemma occurrences_le_length (p : string) (names : list string) :
  (occurrences p names ≤ length names)%nat.
Proof. unfold occurrences. apply length_filter. Qed.

Lemma CreateTensorVars_names (names : list string) :
  ∀ st,
    (∀ p, 0 ≤ next_label st p ∧
          next_label st p + Z.of_nat (occurrences p names) ≤ INT_MAX) →
    ∃ st' rest,
      CreateTensorVars names st =
        Ok (map Var_obj (seq (length (var_store st)) (length names)), st') ∧
      var_store st' = (var_store st ++ rest)%list ∧
      (∀ i p, names !! i = Some p →
         name_hint st' (Var_obj (length (var_store st) + i)) =
         Some (fullname p (next_label st p + Z.of_nat (occurrences p (take i names))))) ∧
      (∀ p, next_label st' p = next_label st p + Z.of_nat (occurrences p names)).
Proof.
  induction names as [|name names IH]; intros st Hrange.
  - exists st, []. split; [reflexivity|]. split; [rewrite app_nil_r; reflexivity|].
    split.
    + intros i p Hi. rewrite lookup_nil in Hi. discriminate.
    + intros p. unfold occurrences. simpl. lia.
  - assert (Hstep : ∀ p, next_label (created name st) p =
                         if decide (name = p) then next_label st name + 1
                         else next_label st p).
    { intros p. rewrite next_label_created.
      destruct (decide (name = p)); [|reflexivity].
      apply wrap_int_in_range. destruct (Hrange name) as [Hlow Hup].
      rewrite occurrences_cons, decide_True in Hup by reflexivity.
      unfold INT_MIN. lia. }
    destruct (IH (created name st)) as (st' & rest & Hrun & Hstore & Hnames & Hcount).
    { intros p. rewrite Hstep. destruct (Hrange p) as [Hlow Hup].
      rewrite occurrences_cons in Hup.
      destruct (decide (name = p)) as [->|Hne]; lia. }
    assert (Hlen : length (var_store (created name st)) = S (length (var_store st))).
    { simpl. rewrite length_app. simpl. lia. }
    exists st', (fullname name (next_label st name) :: rest).
    split; [|split; [|split]].
    + simpl. unfold bind at 1. rewrite CreateTensorVar_eq.
      unfold bind at 1. rewrite Hrun, Hlen. reflexivity.
    + rewrite Hstore. simpl. rewrite <- app_assoc. reflexivity.
    + intros [|i] p Hi.
      * simpl in Hi. injection Hi as ->. unfold name_hint.
        rewrite Hstore. simpl var_store. rewrite <- app_assoc.
        rewrite lookup_app_r by lia.
        replace (length (var_store st) + 0 - length (var_store st))%nat with 0%nat by lia.
        simpl. unfold occurrences. simpl. rewrite Z.add_0_r. reflexivity.
      * simpl in Hi. specialize (Hnames i p Hi).
        rewrite Hlen in Hnames.
        replace (length (var_store st) + S i)%nat with (S (length (var_store st)) + i)%nat by lia.
        rewrite Hnames. do 2 f_equal.
        rewrite Hstep. simpl take. rewrite occurrences_cons.
        destruct (decide (name = p)) as [->|Hne]; lia.
    + intros p. rewrite Hcount, Hstep, occurrences_cons.
      destruct (decide (name = p)) as [->|Hne]; lia.
Qed.

(** X21: in a run of [CreateTensorVar] calls during which every counter
    stays within the range of an [int] (each prefix's counter at the
    start is not negative and, with the calls of the run for that
    prefix added, at most [INT_MAX]), the variable of the [i]-th call
    is named by its prefix, an underscore, and the count the prefix had
    at the start plus the number of earlier calls of the run with the
    same prefix; after the run each counter has grown by the number of
    calls with its prefix. *)
Theorem CreateTensorVar_counts_per_prefix (names : list string) (st : analyzer) :
  (∀ p, 0 ≤ next_label st p ∧
        next_label st p + Z.of_nat (occurrences p names) ≤ INT_MAX) →
  ∃ vs st',
    CreateTensorVars names st = Ok (vs, st') ∧
    length vs = length names ∧
    (∀ i p v, names !! i = Some p → vs !! i = Some v →
       name_hint st' v =
       Some (fullname p (next_label st p + Z.of_nat (occurrences p (take i names))))) ∧
    (∀ p, next_label st' p = next_label st p + Z.of_nat (occurrences p names)).
Proof.
  intros Hrange.
  destruct (CreateTensorVars_names names st Hrange)
    as (st' & rest & Hrun & _ & Hnames & Hcount).
  eexists _, st'. split; [exact Hrun|]. split; [|split].
  - rewrite length_map, length_seq. reflexivity.
  - intros i p v Hi Hv. rewrite list_lookup_fmap in Hv.
    destruct (seq (length (var_store st)) (length names) !! i) as [a|] eqn:Ha;
      [|discriminate].
    apply lookup_seq in Ha as [-> _]. injection Hv as <-.
    apply Hnames, Hi.
  - exact Hcount.
Qed.

Lemma CreateTensorVar_counts_per_prefix_witness :
  ∃ vs st',
    CreateTensorVars ["t"; "ms"; "t"] (new_analyzer ["x"]) = Ok (vs, st') ∧
    length vs = 3%nat ∧
    name_hint st' (Var_obj 3) = Some "t_1" ∧
    next_label st' "t" = 2.
Proof.
  destruct (CreateTensorVar_counts_per_prefix ["t"; "ms"; "t"] (new_analyzer ["x"]))
    as (vs & st' & Hrun & Hlen & Hnames & Hcount).
  { intros p. unfold next_label. simpl. rewrite lookup_empty. simpl.
    split; [reflexivity|].
    pose proof (occurrences_le_length p ["t"; "ms"; "t"]) as Hle. simpl in Hle.
    unfold INT_MAX. lia. }
  exists vs, st'. split; [exact Hrun|]. split; [exact Hlen|]. split.
  - apply (Hnames 2%nat "t" (Var_obj 3)); [reflexivity|].
    assert (Hvs : Ok (vs, st') =
                  Ok ([Var_obj 1; Var_obj 2; Var_obj 3],
                      match CreateTensorVars ["t"; "ms"; "t"] (new_analyzer ["x"]) with
                      | Ok (_, s) => s
                      | _ => st'
                      end)).
    { rewrite <- Hrun. reflexivity. }
    injection Hvs as -> _. reflexivity.
  - rewrite (Hcount "t"). reflexivity.
Defined.

(** ** Further compositions *)

(** X22: [Unite] on two units that are already in one class changes no
    representative and no [inv_live_] entry. *)
Theorem Unite_same_class_changes_nothing
    (st : analyzer) (x y r : Var) (sr : gset Var) :
  root_of (union_find_forest_ st) x r →
  root_of (union_find_forest_ st) y r →
  inv_live_ st !! r = Some sr →
  ∃ n st',
    (∀ fuel, (n ≤ fuel)%nat → Unite fuel x y st = Ok (r, st')) ∧
    inv_live_ st' = inv_live_ st ∧
    (∀ z r', root_of (union_find_forest_ st') z r' ↔ root_of (union_find_forest_ st) z r').
Proof.
  intros Hx Hy Hsr.
  destruct (Unite_spec st x y r r sr Hx Hy Hsr) as (n & f2 & Hroots & _ & Hrun).
  eexists n, _. split; [exact Hrun|]. simpl. split.
  - rewrite Hsr. simpl. apply insert_id. rewrite Hsr. f_equal.
    apply set_eq. intros z. rewrite elem_of_union. tauto.
  - intros z r'. rewrite insert_id; [apply Hroots|].
    apply (root_of_is_root f2 x), Hroots, Hx.
Qed.

Lemma Unite_same_class_changes_nothing_witness :
  ∃ n st',
    (∀ fuel, (n ≤ fuel)%nat → Unite fuel unit_a unit_r sample_united = Ok (unit_r, st')) ∧
    inv_live_ st' = inv_live_ sample_united ∧
    (∀ z r', root_of (union_find_forest_ st') z r' ↔
             root_of (union_find_forest_ sample_united) z r').
Proof.
  apply (Unite_same_class_changes_nothing sample_united unit_a unit_r unit_r
           ({[anchor_q]} ∪ {[anchor_p]})).
  - eapply root_of_step; [reflexivity | discriminate |]. constructor. reflexivity.
  - constructor. reflexivity.
  - reflexivity.
Defined.

(** X23: after [Init(to, from)] the two variables are aliases for
    [GetTensorVar]: it returns the same unit, or the null variable, on
    both. *)
Theorem Init_then_GetTensorVar (st : analyzer) (to from : Var) :
  vset_ st !! to = None →
  vtuple_ st !! to = None ∨ vtuple_ st !! from = None →
  ∃ st' u,
    Init to from st = Ok (tt, st') ∧
    GetTensorVar to st' = Ok (u, st') ∧
    GetTensorVar from st' = Ok (u, st').
Proof.
  intros Hto Htup.
  assert (Hrun : ∃ st', Init to from st = Ok (tt, st') ∧
            vset_ st' !! to = Some (default ∅ (vset_ st !! from)) ∧
            vset_ st' !! from = Some (default ∅ (vset_ st !! from))).
  { unfold Init. mstep.
    destruct (vtuple_ st !! from) as [fields|] eqn:Hfrom; simpl.
    - destruct Htup as [Htup|Htup]; [|discriminate].
      rewrite bool_decide_eq_true_2 by exact Htup. simpl.
      rewrite Hfrom. simpl. rewrite Hto. simpl.
      eexists. split; [reflexivity|]. simpl. split; [apply lookup_insert_eq|].
      destruct (decide (to = from)) as [->|Hne]; [apply lookup_insert_eq|].
      rewrite lookup_insert_ne by exact Hne. apply lookup_insert_eq.
    - rewrite Hto. simpl.
      eexists. split; [reflexivity|]. simpl. split; [apply lookup_insert_eq|].
      destruct (decide (to = from)) as [->|Hne]; [apply lookup_insert_eq|].
      rewrite lookup_insert_ne by exact Hne. apply lookup_insert_eq. }
  destruct Hrun as (st' & Hrun & Hvto & Hvfrom).
  eexists st', _. split; [exact Hrun|].
  rewrite (GetTensorVar_eq st' to _ Hvto), (GetTensorVar_eq st' from _ Hvfrom).
  split; reflexivity.
Qed.

Lemma Init_then_GetTensorVar_witness :
  let st := set_vset (insert (Var_obj 0) {[Var_obj 2]}) (new_analyzer ["a"; "b"; "t_0"]) in
  ∃ st' u,
    Init (Var_obj 1) (Var_obj 0) st = Ok (tt, st') ∧
    GetTensorVar (Var_obj 1) st' = Ok (u, st') ∧
    GetTensorVar (Var_obj 0) st' = Ok (u, st').
Proof.
  intros st. apply (Init_then_GetTensorVar st (Var_obj 1) (Var_obj 0)).
  - reflexivity.
  - left. reflexivity.
Defined.

(** ** The creators, in full *)

Lemma not_allocated_defined (st : analyzer) (v : Var) :
  ¬ allocated st v → defined v = true.
Proof. destruct v; simpl; [intros H; exfalso; apply H; exact I | reflexivity]. Qed.

Lemma not_allocated_mono (st st' : analyzer) (v : Var) :
  (length (var_store st) ≤ length (var_store st'))%nat →
  ¬ allocated st' v → ¬ allocated st v.
Proof. intros Hlen Hn Ha. apply Hn. eapply allocated_mono; eauto. Qed.

Lemma bind_Ok_inv {A B} (m : M A) (k : A → M B) (st st' : analyzer) (b : B) :
  bind m k st = Ok (b, st') →
  ∃ a st1, m st = Ok (a, st1) ∧ k a st1 = Ok (b, st').
Proof.
  unfold bind. destruct (m st) as [[a st1]| |]; [eauto | discriminate | discriminate].
Qed.

Lemma newly_named_created (name : string) (st : analyzer) (s : gset Var) :
  newly_named st (set_vset (insert (fresh_var st) s) (created name st)) name (fresh_var st).
Proof.
  split; [reflexivity|]. split; [simpl; lia|].
  split; [apply allocated_fresh_created|].
  split; [simpl; rewrite lookup_app_r by lia; rewrite Nat.sub_diag; reflexivity|].
  split; [reflexivity|]. split; [reflexivity|]. split.
  - intros Hc. unfold next_label at 1. simpl. rewrite lookup_insert_eq. simpl.
    apply wrap_int_in_range. unfold INT_MIN. lia.
  - intros p Hp. unfold next_label at 1. simpl.
    rewrite lookup_insert_ne by auto. reflexivity.
Qed.

Lemma Merge_loop_new (st0 : analyzer) (vars : list Var) :
  ∀ (st st' : analyzer) (r res : Var),
    ¬ allocated st0 r →
    (length (var_store st0) ≤ length (var_store st))%nat →
    Merge_loop r vars st = Ok (res, st') →
    ¬ allocated st0 res ∧ (length (var_store st) ≤ length (var_store st'))%nat.
Proof.
  induction vars as [|v vars IH]; intros st st' r res Hr Hlen Hrun.
  - injection Hrun as <- <-. split; [exact Hr | lia].
  - simpl in Hrun. apply bind_Ok_inv in Hrun as (r1 & st1 & Hm & Hrun).
    apply Merge_Ok_inv in Hm as (s1 & s2 & _ & _ & -> & ->).
    assert (Hlen1 : length (var_store (set_vset (insert (fresh_var st) (s1 ∪ s2))
                                         (created "ms" st))) = S (length (var_store st))).
    { simpl. rewrite length_app. simpl. lia. }
    assert (Hfresh : ¬ allocated st0 (fresh_var st)) by (simpl; lia).
    assert (Hlen0 : (length (var_store st0) ≤
                     length (var_store (set_vset (insert (fresh_var st) (s1 ∪ s2))
                                          (created "ms" st))))%nat) by (rewrite Hlen1; lia).
    destruct (IH _ _ _ _ Hfresh Hlen0 Hrun) as [Hres Hle].
    split; [exact Hres | lia].
Qed.

Lemma Merge_array_new (st0 st st' : analyzer) (vars : list Var) (res : Var) :
  (length (var_store st0) ≤ length (var_store st))%nat →
  Forall (fun v => ¬ allocated st0 v) vars →
  Merge_array vars st = Ok (res, st') →
  ¬ allocated st0 res ∧ (length (var_store st) ≤ length (var_store st'))%nat.
Proof.
  intros Hlen Hall Hrun. destruct vars as [|v0 [|v1 rest]].
  - rewrite (CreateNull_eq "n" st : Merge_array [] st = _) in Hrun.
    injection Hrun as <- <-. simpl. rewrite length_app. simpl. lia.
  - inversion Hall as [|? ? H0 _]; subst.
    simpl in Hrun. mstep.
    destruct (bool_decide (is_Some (vset_ st !! v0))); [|discriminate].
    injection Hrun as <- <-. split; [exact H0 | lia].
  - simpl in Hrun. apply bind_Ok_inv in Hrun as (r1 & st1 & Hm & Hrun).
    apply Merge_Ok_inv in Hm as (s1 & s2 & _ & _ & -> & ->).
    assert (Hlen1 : length (var_store (set_vset (insert (fresh_var st) (s1 ∪ s2))
                                         (created "ms" st))) = S (length (var_store st))).
    { simpl. rewrite length_app. simpl. lia. }
    assert (Hfresh : ¬ allocated st0 (fresh_var st)) by (simpl; lia).
    assert (Hlen0 : (length (var_store st0) ≤
                     length (var_store (set_vset (insert (fresh_var st) (s1 ∪ s2))
                                          (created "ms" st))))%nat) by (rewrite Hlen1; lia).
    destruct (Merge_loop_new st0 rest _ _ _ _ Hfresh Hlen0 Hrun) as [Hres Hle].
    split; [exact Hres | lia].
Qed.

Lemma VisitFields_new (fs : list IRType) :
  Forall (fun ty => ∀ st v st',
            VarCreator.VisitType ty st = Ok (v, st') →
            ¬ allocated st v ∧ (length (var_store st) ≤ length (var_store st'))%nat) fs →
  ∀ st vs st',
    VarCreator.VisitFields fs st = Ok (vs, st') →
    Forall (fun v => ¬ allocated st v) vs ∧
    (length (var_store st) ≤ length (var_store st'))%nat.
Proof.
  induction 1 as [|ty fs Hty _ IH]; intros st vs st' Hrun.
  - injection Hrun as <- <-. split; [constructor | lia].
  - simpl in Hrun. apply bind_Ok_inv in Hrun as (v & st1 & Hv & Hrun).
    apply bind_Ok_inv in Hrun as (vs' & st2 & Hvs & Hrun).
    injection Hrun as <- <-.
    destruct (Hty _ _ _ Hv) as [Hnew Hlen1].
    destruct (IH _ _ _ Hvs) as [Hnews Hlen2].
    split; [|lia]. constructor; [exact Hnew|].
    eapply Forall_impl; [exact Hnews|]. intros z. apply not_allocated_mono, Hlen1.
Qed.

(** The variable a visit returns is a new object, and the store only
    grows. *)
Lemma VisitType_new (ty : IRType) :
  ∀ st v st',
    VarCreator.VisitType ty st = Ok (v, st') →
    ¬ allocated st v ∧ (length (var_store st) ≤ length (var_store st'))%nat.
Proof.
  induction ty as [|fields IH|] using IRType_nested_ind; intros st v st' Hrun.
  - rewrite (CreateTensor_eq "t" st : VarCreator.VisitType TensorType st = _) in Hrun.
    injection Hrun as <- <-. simpl. rewrite length_app. simpl. lia.
  - rewrite VisitType_tuple in Hrun.
    apply bind_Ok_inv in Hrun as (fvs & st1 & Hfs & Hrun).
    apply bind_Ok_inv in Hrun as (tvar & st2 & Hm & Hrun).
    injection Hrun as <- <-.
    destruct (VisitFields_new fields IH _ _ _ Hfs) as [Hnews Hlen1].
    destruct (Merge_array_new st st1 st2 fvs tvar Hlen1 Hnews Hm) as [Hnew Hlen2].
    split; [exact Hnew | simpl; lia].
  - discriminate.
Qed.

Lemma minted_frame (st0 st1 st2 st3 : analyzer) (ty : IRType) (v : Var) :
  vset_frame st0 st1 → minted st1 st2 ty v → vset_frame st2 st3 →
  minted st0 st3 ty v.
Proof.
  intros Hf01 (Hdef & Hnew & Hal & s & Hs & Hsize & Hunits) Hf23.
  split; [exact Hdef|]. split; [|split].
  - eapply not_allocated_mono; [apply Hf01 | exact Hnew].
  - eapply allocated_mono; [apply Hf23 | exact Hal].
  - exists s. split; [|split; [exact Hsize|]].
    + destruct Hf23 as [_ Hf23]. rewrite Hf23 by exact Hal. exact Hs.
    + intros u Hu. eapply fresh_unit_frame; [exact Hf01 | apply Hunits, Hu | exact Hf23].
Qed.

Lemma minted_has_vset (st st' : analyzer) (fs : list IRType) (vs : list Var) :
  Forall2 (minted st st') fs vs → Forall (has_vset st') vs.
Proof.
  induction 1 as [|ty v fs vs (_ & _ & Hal & s & Hs & _) _ IH]; constructor.
  - split; [exact Hal | eauto].
  - exact IH.
Qed.

Lemma VisitType_minted (ty : IRType) (st : analyzer) :
  structural ty = true →
  ∃ v st', VarCreator.VisitType ty st = Ok (v, st') ∧
           minted st st' ty v ∧ vset_frame st st'.
Proof.
  intros Hs.
  destruct (VisitType_units ty Hs st) as (v & st' & s & Hrun & Hv & Hsize & Hunits & Hal & Hf).
  destruct (VisitType_new ty st v st' Hrun) as [Hnew _].
  exists v, st'. split; [exact Hrun|]. split; [|exact Hf].
  split; [eapply not_allocated_defined; exact Hnew|].
  split; [exact Hnew|]. split; [exact Hal|]. exists s. auto.
Qed.

Lemma VisitFields_minted (fs : list IRType) :
  forallb structural fs = true →
  ∀ st, ∃ vs st',
    VarCreator.VisitFields fs st = Ok (vs, st') ∧
    Forall2 (minted st st') fs vs ∧
    vset_frame st st'.
Proof.
  induction fs as [|ty fs IH]; intros Hstr st.
  - exists [], st. split; [reflexivity|]. split; [constructor | apply vset_frame_refl].
  - simpl in Hstr. apply andb_prop in Hstr as [Hs Hss].
    destruct (VisitType_minted ty st Hs) as (v & st1 & Hrun1 & Hv & Hf1).
    destruct (IH Hss st1) as (vs & st2 & Hrun2 & Hvs & Hf2).
    exists (v :: vs), st2. split; [|split].
    + simpl. unfold bind at 1. rewrite Hrun1. unfold bind at 1. rewrite Hrun2.
      reflexivity.
    + constructor.
      * eapply minted_frame; [apply vset_frame_refl | exact Hv | exact Hf2].
      * eapply Forall2_impl; [exact Hvs|]. intros ty' v' Hm.
        eapply minted_frame; [exact Hf1 | exact Hm | apply vset_frame_refl].
    + eapply vset_frame_trans; eauto.
Qed.

Lemma names_differ (st : analyzer) (target : string) (vs : list Var) (nms : list string) :
  Forall2 (fun v nm => name_hint st v = Some nm) vs nms →
  Forall (fun nm => nm ≠ target) nms →
  Forall (fun w => name_hint st w ≠ Some target) vs.
Proof.
  induction 1 as [|v nm vs nms Hv _ IH]; intros Hall; [constructor|].
  inversion Hall as [|? ? Hnm Hall']; subst. constructor; [|apply IH, Hall'].
  rewrite Hv. intros [= ->]. apply Hnm. reflexivity.
Qed.

(** After a run of [CreateTensorVar] calls from empty counters, the
    variable the next creator returns differs, as an object and by
    name, from every variable of the run. *)
Lemma creator_after_run (names : list string) (name : string) (st : analyzer) (s : gset Var) :
  label_ st = ∅ →
  Z.of_nat (length names) < INT_MAX →
  ∃ vs st1,
    CreateTensorVars names st = Ok (vs, st1) ∧
    Forall (fun w =>
              w ≠ fresh_var st1 ∧
              name_hint (set_vset (insert (fresh_var st1) s) (created name st1)) w ≠
              name_hint (set_vset (insert (fresh_var st1) s) (created name st1)) (fresh_var st1))
           vs.
Proof.
  intros Hempty Hlen.
  assert (Hzero : ∀ p, next_label st p = 0).
  { intros p. unfold next_label. rewrite Hempty, lookup_empty. reflexivity. }
  destruct (CreateTensorVars_spec names st)
    as (pairs & st1 & Hrun & Hlenp & Hstore & _ & Hused & _).
  { intros p. rewrite Hzero. lia. }
  { intros p. rewrite Hzero. lia. }
  eexists _, st1. split; [exact Hrun|].
  set (st' := set_vset _ _).
  assert (Hv : name_hint st' (fresh_var st1) = Some (fullname name (next_label st1 name))).
  { apply (newly_named_created name st1 s). }
  assert (Hnames : Forall (fun w => name_hint st' w ≠ Some (fullname name (next_label st1 name)))
                     (map Var_obj (seq (length (var_store st)) (length pairs)))).
  { apply (names_differ st' _ _ (map pair_name pairs)).
    - apply (name_hints_appended (var_store st) pairs st'
               [fullname name (next_label st1 name)]).
      simpl. rewrite Hstore, <- app_assoc. reflexivity.
    - apply Forall_forall. intros nm Hnm.
      apply list_elem_of_fmap in Hnm as (pk & -> & Hpk).
      intros Heq. apply (pair_name_inj pk (name, next_label st1 name)) in Heq.
      apply Hused in Hpk. rewrite Heq in Hpk. simpl in Hpk. lia. }
  apply Forall_forall. intros w Hw. split.
  - apply list_elem_of_fmap in Hw as (a & -> & Ha). apply elem_of_seq in Ha.
    unfold fresh_var. rewrite Hstore, length_app, length_map. intros [= ->]. lia.
  - rewrite Hv. apply (proj1 (Forall_forall _ _) Hnames w Hw).
Qed.

(** C4: [CreateNull] returns a freshly named variable whose unit-set is
    empty, and [CreateTensor] one whose unit-set is the singleton of
    itself: the variable is a new object named by the prefix and the
    prefix's counter, that counter is incremented (so that, within one
    analyzer and the range of an [int], no variable created before has
    the name), and no older [vset_] entry is touched.  On a tuple type
    made of tensors and tuples, [VarCreator::Run] returns a new
    variable [tvar]; [vtuple_[tvar]] is the list [fvs] of the variables
    the visit of the fields returned, in field order; each of them is a
    new variable whose unit-set has one freshly minted unit per tensor
    leaf of its field, as it was when the field was visited; and
    [vset_[tvar]] is the union of their unit-sets, one minted unit per
    tensor leaf of the tuple type. *)
Theorem creators_spec :
  (∀ name st, ∃ v st',
      CreateNull name st = Ok (v, st') ∧
      ¬ allocated st v ∧ allocated st' v ∧
      name_hint st' v = Some (fullname name (next_label st name)) ∧
      vset_ st' !! v = Some ∅ ∧
      newly_named st st' name v ∧ vset_frame st st') ∧
  (∀ name st, ∃ v st',
      CreateTensor name st = Ok (v, st') ∧
      ¬ allocated st v ∧ allocated st' v ∧
      name_hint st' v = Some (fullname name (next_label st name)) ∧
      vset_ st' !! v = Some {[v]} ∧
      newly_named st st' name v ∧ vset_frame st st') ∧
  (∀ names name st,
      label_ st = ∅ → Z.of_nat (length names) < INT_MAX →
      ∃ vs st1,
        CreateTensorVars names st = Ok (vs, st1) ∧
        ∀ v st', CreateNull name st1 = Ok (v, st') ∨ CreateTensor name st1 = Ok (v, st') →
                 Forall (fun w => w ≠ v ∧ name_hint st' w ≠ name_hint st' v) vs) ∧
  (∀ fields st, structural (TupleType fields) = true →
      ∃ fvs st1 tvar st',
        VarCreator.VisitFields fields st = Ok (fvs, st1) ∧
        VarCreator.Run (TupleType fields) st = Ok (tvar, st') ∧
        length fvs = length fields ∧
        vtuple_ st' !! tvar = Some fvs ∧
        Forall (fun f => is_Some (vset_ st' !! f)) fvs ∧
        vset_ st' !! tvar = Some (union_of st' fvs) ∧
        Forall2 (minted st st') fields fvs ∧
        Forall (fun f => vset_ st' !! f = vset_ st1 !! f) fvs ∧
        minted st st' (TupleType fields) tvar ∧
        vset_frame st st').
Proof.
  split; [|split; [|split]].
  - intros name st. eexists _, _. split; [apply CreateNull_eq|].
    pose proof (newly_named_created name st ∅) as Hn.
    destruct Hn as (Hdef & Hnew & Hal & Hname & Hrest).
    split; [exact Hnew|]. split; [exact Hal|]. split; [exact Hname|].
    split; [apply lookup_insert_eq|].
    split; [apply newly_named_created | apply vset_frame_created].
  - intros name st. eexists _, _. split; [apply CreateTensor_eq|].
    pose proof (newly_named_created name st {[fresh_var st]}) as Hn.
    destruct Hn as (Hdef & Hnew & Hal & Hname & Hrest).
    split; [exact Hnew|]. split; [exact Hal|]. split; [exact Hname|].
    split; [apply lookup_insert_eq|].
    split; [apply newly_named_created | apply vset_frame_created].
  - intros names name st Hempty Hlen.
    destruct (creator_after_run names name st ∅ Hempty Hlen) as (vs & st1 & Hrun & Hnull).
    destruct (creator_after_run names name st {[fresh_var st1]} Hempty Hlen)
      as (vs' & st1' & Hrun' & Htensor).
    rewrite Hrun in Hrun'. injection Hrun' as <- <-.
    exists vs, st1. split; [exact Hrun|].
    intros v st' [Hc|Hc].
    + rewrite CreateNull_eq in Hc. injection Hc as <- <-. exact Hnull.
    + rewrite CreateTensor_eq in Hc. injection Hc as <- <-. exact Htensor.
  - intros fields st Hstr.
    destruct (VisitFields_minted fields Hstr st) as (fvs & st1 & Hrun & Hminted & Hf1).
    pose proof (minted_has_vset st st1 fields fvs Hminted) as Hall.
    destruct (VisitTuple_spec fields st st1 fvs Hrun Hall)
      as (tvar & st' & Hrun' & Htuple & Hset & Hall' & _ & Hf2).
    destruct (VisitType_minted (TupleType fields) st Hstr)
      as (tvar' & st'' & Hrun'' & Htvar & Hf).
    rewrite Hrun' in Hrun''. injection Hrun'' as <- <-.
    exists fvs, st1, tvar, st'.
    split; [exact Hrun|]. split; [exact Hrun'|].
    split; [symmetry; eapply Forall2_length; exact Hminted|].
    split; [exact Htuple|].
    split; [eapply Forall_impl; [exact Hall'|]; intros z [_ Hz]; exact Hz|].
    split; [exact Hset|]. split; [|split; [|split; [exact Htvar | exact Hf]]].
    + eapply Forall2_impl; [exact Hminted|]. intros ty v Hm.
      eapply minted_frame; [apply vset_frame_refl | exact Hm | exact Hf2].
    + eapply Forall_impl; [exact Hall|]. intros z [Hz _].
      destruct Hf2 as [_ Hf2]. apply Hf2, Hz.
Qed.

Lemma creators_spec_witness :
  (∃ vs st1,
     CreateTensorVars ["t"; "n"; "t"] (new_analyzer ["x"; "t_0"]) = Ok (vs, st1) ∧
     ∀ v st', CreateNull "n" st1 = Ok (v, st') ∨ CreateTensor "n" st1 = Ok (v, st') →
              Forall (fun w => w ≠ v ∧ name_hint st' w ≠ name_hint st' v) vs) ∧
  (∃ fvs st1 tvar st',
    VarCreator.VisitFields [TensorType; TupleType [TensorType]; TupleType []]
      (new_analyzer ["x"]) = Ok (fvs, st1) ∧
    VarCreator.Run (TupleType [TensorType; TupleType [TensorType]; TupleType []])
      (new_analyzer ["x"]) = Ok (tvar, st') ∧
    length fvs = 3%nat ∧
    vtuple_ st' !! tvar = Some fvs ∧
    Forall (fun f => is_Some (vset_ st' !! f)) fvs ∧
    vset_ st' !! tvar = Some (union_of st' fvs) ∧
    Forall2 (minted (new_analyzer ["x"]) st')
            [TensorType; TupleType [TensorType]; TupleType []] fvs ∧
    Forall (fun f => vset_ st' !! f = vset_ st1 !! f) fvs ∧
    minted (new_analyzer ["x"]) st'
           (TupleType [TensorType; TupleType [TensorType]; TupleType []]) tvar ∧
    vset_frame (new_analyzer ["x"]) st').
Proof.
  destruct creators_spec as (_ & _ & Hfresh & Hrun). split.
  - apply (Hfresh ["t"; "n"; "t"] "n" (new_analyzer ["x"; "t_0"])).
    + reflexivity.
    + reflexivity.
  - apply (Hrun [TensorType; TupleType [TensorType]; TupleType []] (new_analyzer ["x"])).
    reflexivity.
Defined.
